(** * crypto/rabbit: the Rabbit stream cipher (rabbit.go)

    A shallow embedding of the cipher state machine of rabbit.go and the
    properties of it that the specification states.

    - [uint32] values are integers of [Z] with the wrap-around modulo 2^32
      written out at every operation that can leave the range;
    - [byte] values are integers of [Z], a conversion [byte(v)] is [v mod 2^8];
    - the arrays [[8]uint32] are records of eight words, read and written by
      index with [get] and [set];
    - slices ([[]byte]) are lists, read by index with stdpp's lookup and
      written with stdpp's insert; an index out of range is a run-time panic
      in Go and [None] here;
    - a method with a pointer receiver takes the cipher and returns the
      cipher it leaves behind. *)

From stdpp Require Import base numbers option list strings pretty.

Local Open Scope Z_scope.

(** ** Machine arithmetic *)

Definition u32 (v : Z) : Z := v mod 2 ^ 32.
Definition byte (v : Z) : Z := v mod 2 ^ 8.

Definition add32 (a b : Z) : Z := u32 (a + b).
Definition mul32 (a b : Z) : Z := u32 (a * b).
Definition shl32 (a n : Z) : Z := u32 (Z.shiftl a n).
Definition shr32 (a n : Z) : Z := Z.shiftr a n.

(** ** The state *)

Record arr8 := Arr8 { a0 : Z; a1 : Z; a2 : Z; a3 : Z; a4 : Z; a5 : Z; a6 : Z; a7 : Z }.

Definition get (a : arr8) (i : nat) : Z :=
  match i with
  | 0 => a0 a | 1 => a1 a | 2 => a2 a | 3 => a3 a
  | 4 => a4 a | 5 => a5 a | 6 => a6 a | _ => a7 a
  end%nat.

Definition set (a : arr8) (i : nat) (v : Z) : arr8 :=
  match i with
  | 0 => Arr8 v (a1 a) (a2 a) (a3 a) (a4 a) (a5 a) (a6 a) (a7 a)
  | 1 => Arr8 (a0 a) v (a2 a) (a3 a) (a4 a) (a5 a) (a6 a) (a7 a)
  | 2 => Arr8 (a0 a) (a1 a) v (a3 a) (a4 a) (a5 a) (a6 a) (a7 a)
  | 3 => Arr8 (a0 a) (a1 a) (a2 a) v (a4 a) (a5 a) (a6 a) (a7 a)
  | 4 => Arr8 (a0 a) (a1 a) (a2 a) (a3 a) v (a5 a) (a6 a) (a7 a)
  | 5 => Arr8 (a0 a) (a1 a) (a2 a) (a3 a) (a4 a) v (a6 a) (a7 a)
  | 6 => Arr8 (a0 a) (a1 a) (a2 a) (a3 a) (a4 a) (a5 a) v (a7 a)
  | _ => Arr8 (a0 a) (a1 a) (a2 a) (a3 a) (a4 a) (a5 a) (a6 a) v
  end%nat.

Definition zero8 : arr8 := Arr8 0 0 0 0 0 0 0 0.

Definition to_list (a : arr8) : list Z :=
  [a0 a; a1 a; a2 a; a3 a; a4 a; a5 a; a6 a; a7 a].

(** [type Cipher struct { x, c, cx, cc [8]uint32; carry, ccarry bool; r []byte }] *)
Record Cipher := mkCipher {
  x : arr8; c : arr8; cx : arr8; cc : arr8;
  carry : bool; ccarry : bool;
  r : list Z
}.

Definition set_x (s : Cipher) (v : arr8) : Cipher :=
  mkCipher v (c s) (cx s) (cc s) (carry s) (ccarry s) (r s).
Definition set_c (s : Cipher) (v : arr8) : Cipher :=
  mkCipher (x s) v (cx s) (cc s) (carry s) (ccarry s) (r s).
Definition set_cx (s : Cipher) (v : arr8) : Cipher :=
  mkCipher (x s) (c s) v (cc s) (carry s) (ccarry s) (r s).
Definition set_cc (s : Cipher) (v : arr8) : Cipher :=
  mkCipher (x s) (c s) (cx s) v (carry s) (ccarry s) (r s).
Definition set_carry (s : Cipher) (v : bool) : Cipher :=
  mkCipher (x s) (c s) (cx s) (cc s) v (ccarry s) (r s).
Definition set_ccarry (s : Cipher) (v : bool) : Cipher :=
  mkCipher (x s) (c s) (cx s) (cc s) (carry s) v (r s).
Definition set_r (s : Cipher) (v : list Z) : Cipher :=
  mkCipher (x s) (c s) (cx s) (cc s) (carry s) (ccarry s) v.

(** The zero value of the struct, [var c Cipher]. *)
Definition zeroCipher : Cipher := mkCipher zero8 zero8 zero8 zero8 false false [].

(** [type KeySizeError struct { t, sz int }] *)
Record KeySizeError := mkKeySizeError { t : Z; sz : nat }.

(** ** The round function *)

(** [v<<n | v>>(32-n)]; the count [32-n] is a [uint32] subtraction. *)
Definition rotl (v n : Z) : Z :=
  Z.lor (shl32 v n) (shr32 v (u32 (32 - n))).

(** [a = x&0xFFFF; b = x>>16; ((((a*a)>>17 + a*b)>>15) + b*b)^(x*x)] *)
Definition rabbitCalcG (u : Z) : Z :=
  let a := Z.land u 0xFFFF in
  let b := shr32 u 16 in
  Z.lxor (add32 (shr32 (add32 (shr32 (mul32 a a) 17) (mul32 a b)) 15) (mul32 b b))
         (mul32 u u).

Definition booltoi (b : bool) : Z := if b then 1 else 0.

Definition rabbitNext (s : Cipher) : Cipher :=
  let c0 := get (c s) 0 in let c1 := get (c s) 1 in
  let c2 := get (c s) 2 in let c3 := get (c s) 3 in
  let c4 := get (c s) 4 in let c5 := get (c s) 5 in
  let c6 := get (c s) 6 in let c7 := get (c s) 7 in
  let c0 := add32 (add32 c0 0x4D34D34D) (booltoi (carry s)) in
  let c1 := add32 (add32 c1 0xD34D34D3) (booltoi (c0 <? get (c s) 0)) in
  let c2 := add32 (add32 c2 0x34D34D34) (booltoi (c1 <? get (c s) 1)) in
  let c3 := add32 (add32 c3 0x4D34D34D) (booltoi (c2 <? get (c s) 2)) in
  let c4 := add32 (add32 c4 0xD34D34D3) (booltoi (c3 <? get (c s) 3)) in
  let c5 := add32 (add32 c5 0x34D34D34) (booltoi (c4 <? get (c s) 4)) in
  let c6 := add32 (add32 c6 0x4D34D34D) (booltoi (c5 <? get (c s) 5)) in
  let c7 := add32 (add32 c7 0xD34D34D3) (booltoi (c6 <? get (c s) 6)) in
  let s := set_carry s (c7 <? get (c s) 7) in
  let g0 := rabbitCalcG (add32 (get (x s) 0) c0) in
  let g1 := rabbitCalcG (add32 (get (x s) 1) c1) in
  let g2 := rabbitCalcG (add32 (get (x s) 2) c2) in
  let g3 := rabbitCalcG (add32 (get (x s) 3) c3) in
  let g4 := rabbitCalcG (add32 (get (x s) 4) c4) in
  let g5 := rabbitCalcG (add32 (get (x s) 5) c5) in
  let g6 := rabbitCalcG (add32 (get (x s) 6) c6) in
  let g7 := rabbitCalcG (add32 (get (x s) 7) c7) in
  let s := set_x s (set (x s) 0 (add32 (add32 g0 (rotl g7 16)) (rotl g6 16))) in
  let s := set_x s (set (x s) 1 (add32 (add32 g1 (rotl g0 8)) g7)) in
  let s := set_x s (set (x s) 2 (add32 (add32 g2 (rotl g1 16)) (rotl g0 16))) in
  let s := set_x s (set (x s) 3 (add32 (add32 g3 (rotl g2 8)) g1)) in
  let s := set_x s (set (x s) 4 (add32 (add32 g4 (rotl g3 16)) (rotl g2 16))) in
  let s := set_x s (set (x s) 5 (add32 (add32 g5 (rotl g4 8)) g3)) in
  let s := set_x s (set (x s) 6 (add32 (add32 g6 (rotl g5 16)) (rotl g4 16))) in
  let s := set_x s (set (x s) 7 (add32 (add32 g7 (rotl g6 8)) g5)) in
  set_c s (Arr8 c0 c1 c2 c3 c4 c5 c6 c7).

(** The four keystream words of a round, as [ProcessStream] (and
    [rabbitGen]) read them off [x]:
    [c.x[0] ^ (c.x[5]>>16 ^ c.x[3]<<16)] and so on. *)
Definition o0 (s : Cipher) : Z :=
  Z.lxor (get (x s) 0) (Z.lxor (shr32 (get (x s) 5) 16) (shl32 (get (x s) 3) 16)).
Definition o1 (s : Cipher) : Z :=
  Z.lxor (get (x s) 2) (Z.lxor (shr32 (get (x s) 7) 16) (shl32 (get (x s) 5) 16)).
Definition o2 (s : Cipher) : Z :=
  Z.lxor (get (x s) 4) (Z.lxor (shr32 (get (x s) 1) 16) (shl32 (get (x s) 7) 16)).
Definition o3 (s : Cipher) : Z :=
  Z.lxor (get (x s) 6) (Z.lxor (shr32 (get (x s) 3) 16) (shl32 (get (x s) 1) 16)).

(** A bounded [for] loop over the indices [idx]. *)
Definition for_range {A : Type} (idx : list nat) (body : nat → A → A) (a : A) : A :=
  fold_left (fun acc i => body i acc) idx a.

Definition range8 : list nat := [0; 1; 2; 3; 4; 5; 6; 7]%nat.

(** ** Key schedule *)

(** [uint32(key[i]) | uint32(key[i+1])<<8 | uint32(key[i+2])<<16 | uint32(key[i+3])<<24];
    the caller has checked the length, so the four reads are in range. *)
Definition le32 (b : list Z) (i : nat) : Z :=
  Z.lor (Z.lor (Z.lor (b !!! i) (shl32 (b !!! (i + 1)%nat) 8))
               (shl32 (b !!! (i + 2)%nat) 16))
        (shl32 (b !!! (i + 3)%nat) 24).

(** The statements of [NewCipher] after the check of the key length. *)
Definition keySetup (key : list Z) : Cipher :=
  let s := zeroCipher in
  let k0 := le32 key 0 in
  let k1 := le32 key 4 in
  let k2 := le32 key 8 in
  let k3 := le32 key 12 in
  let s := set_x s (set (x s) 0 k0) in
  let s := set_x s (set (x s) 2 k1) in
  let s := set_x s (set (x s) 4 k2) in
  let s := set_x s (set (x s) 6 k3) in
  let s := set_x s (set (x s) 1 (Z.lor (shl32 k3 16) (shr32 k2 16))) in
  let s := set_x s (set (x s) 3 (Z.lor (shl32 k0 16) (shr32 k3 16))) in
  let s := set_x s (set (x s) 5 (Z.lor (shl32 k1 16) (shr32 k0 16))) in
  let s := set_x s (set (x s) 7 (Z.lor (shl32 k2 16) (shr32 k1 16))) in
  let s := set_c s (set (c s) 0 (rotl k2 16)) in
  let s := set_c s (set (c s) 2 (rotl k3 16)) in
  let s := set_c s (set (c s) 4 (rotl k0 16)) in
  let s := set_c s (set (c s) 6 (rotl k1 16)) in
  let s := set_c s (set (c s) 1 (Z.lor (Z.land k0 0xFFFF0000) (Z.land k1 0xFFFF))) in
  let s := set_c s (set (c s) 3 (Z.lor (Z.land k1 0xFFFF0000) (Z.land k2 0xFFFF))) in
  let s := set_c s (set (c s) 5 (Z.lor (Z.land k2 0xFFFF0000) (Z.land k3 0xFFFF))) in
  let s := set_c s (set (c s) 7 (Z.lor (Z.land k3 0xFFFF0000) (Z.land k0 0xFFFF))) in
  let s := set_carry s false in
  let s := for_range [0; 1; 2; 3]%nat (fun _ s => rabbitNext s) s in
  let s := for_range range8
             (fun i s => set_c s (set (c s) i
                (Z.lxor (get (c s) i) (get (x s) (Z.to_nat (Z.land (Z.of_nat i + 4) 0x7)))))) s in
  let s := for_range range8
             (fun i s =>
                let s := set_cx s (set (cx s) i (get (x s) i)) in
                set_cc s (set (cc s) i (get (c s) i))) s in
  let s := set_ccarry s (carry s) in
  s.

Definition NewCipher (key : list Z) : Cipher + KeySizeError :=
  let k := length key in
  if negb (k =? 16)%nat then inr (mkKeySizeError 1 k) else
  inl (keySetup key).

(** ** IV setup *)

(** The method returns the cipher it leaves behind and the [os.Error]
    ([None] for [nil]). *)
Definition SetupIV (s : Cipher) (iv : list Z) : Cipher * option KeySizeError :=
  let k := length iv in
  if negb (k =? 8)%nat then (s, Some (mkKeySizeError 2 k)) else
  let d0 := le32 iv 0 in
  let d2 := le32 iv 4 in
  let d1 := Z.lor (shr32 d0 16) (Z.land d2 0xFFFF0000) in
  let d3 := Z.lor (shl32 d2 16) (Z.land d0 0x0000FFFF) in
  let s := set_c s (set (c s) 0 (Z.lxor (get (cc s) 0) d0)) in
  let s := set_c s (set (c s) 1 (Z.lxor (get (cc s) 1) d1)) in
  let s := set_c s (set (c s) 2 (Z.lxor (get (cc s) 2) d2)) in
  let s := set_c s (set (c s) 3 (Z.lxor (get (cc s) 3) d3)) in
  let s := set_c s (set (c s) 4 (Z.lxor (get (cc s) 4) d0)) in
  let s := set_c s (set (c s) 5 (Z.lxor (get (cc s) 5) d1)) in
  let s := set_c s (set (c s) 6 (Z.lxor (get (cc s) 6) d2)) in
  let s := set_c s (set (c s) 7 (Z.lxor (get (cc s) 7) d3)) in
  let s := for_range range8 (fun i s => set_x s (set (x s) i (get (cx s) i))) s in
  let s := set_carry s (ccarry s) in
  let s := for_range [0; 1; 2; 3]%nat (fun _ s => rabbitNext s) s in
  (s, None).

(** ** Stream processing *)

(** [b[i] ^= k]: a read and a write at index [i], which panics when [i] is
    out of range. *)
Definition xor_at (b : list Z) (i : nat) (k : Z) : option (list Z) :=
  v ← b !! i; Some (<[i := Z.lxor v k]> b).

(** [for ; i < m && i < l; i++ { buf[i] ^= c.r[i] }].  The loop runs at most
    [m] times; [fuel] bounds the number of iterations. *)
Fixpoint pending_loop (fuel : nat) (pend buf : list Z) (i m l : nat)
  : option (list Z * nat) :=
  if (i <? m)%nat && (i <? l)%nat then
    match fuel with
    | O => None
    | S fuel' =>
        k ← pend !! i;
        buf ← xor_at buf i k;
        pending_loop fuel' pend buf (S i) m l
    end
  else Some (buf, i).

(** The variables of the loop that handles the last, partial block:
    [tb] is the caller's buffer, [tr] the slice [c.r], [ti] and [tl] the
    variables [i] and [l], and [tf] the flag [f].  The slice variable [b]
    of the source aliases [buf] while [f] is false and [c.r] afterwards. *)
Record tail := mkTail { tb : list Z; tr : list Z; ti : nat; tl : nat; tf : bool }.

(** How a loop body ends: it falls through to the next iteration, it
    executes [return], or it panics. *)
Inductive ctl (A : Type) : Type :=
| Next (a : A)
| Return (a : A)
| Fault.
Arguments Next {A} a.
Arguments Return {A} a.
Arguments Fault {A}.

Definition ctl_bind {A : Type} (m : ctl A) (f : A → ctl A) : ctl A :=
  match m with
  | Next a => f a
  | Return a => Return a
  | Fault => Fault
  end.

(** The body of the loop over [k]:
    [b[i] ^= byte(z>>(k*8)); if i++; f == false && i >= l { ... }]. *)
Definition tail_body (z : Z) (j k : nat) (st : tail) : ctl tail :=
  let kb := byte (shr32 z (Z.of_nat k * 8)) in
  match xor_at (if tf st then tr st else tb st) (ti st) kb with
  | None => Fault
  | Some b' =>
      let st := if tf st then mkTail (tb st) b' (ti st) (tl st) (tf st)
                else mkTail b' (tr st) (ti st) (tl st) (tf st) in
      let st := mkTail (tb st) (tr st) (S (ti st)) (tl st) (tf st) in
      if negb (tf st) && (tl st <=? ti st)%nat then
        let l := ((3 - j) * 4 + (3 - k))%nat in
        if (l =? 0)%nat then Return (mkTail (tb st) (tr st) (ti st) l (tf st))
        else Next (mkTail (tb st) (repeat 0 l) 0 l true)
      else Next st
  end.

(** [for k := uint32(0); k < 4; k++ { ... }] *)
Fixpoint tail_for_k (ks : list nat) (z : Z) (j : nat) (st : tail) : ctl tail :=
  match ks with
  | [] => Next st
  | k :: ks' => ctl_bind (tail_body z j k st) (tail_for_k ks' z j)
  end.

(** [for b, j, z, f := buf, 0, o0, false; j < 4; j++ { ...; switch(j) { ... } }] *)
Fixpoint tail_for_j (s : Cipher) (js : list nat) (z : Z) (st : tail) : ctl tail :=
  match js with
  | [] => Next st
  | j :: js' =>
      ctl_bind (tail_for_k [0; 1; 2; 3]%nat z j st)
        (fun st =>
           let z := match j with
                    | 0%nat => o1 s
                    | 1%nat => o2 s
                    | 2%nat => o3 s
                    | _ => z
                    end in
           tail_for_j s js' z st)
  end.

Definition tail_loop (s : Cipher) (buf : list Z) (i l : nat) : ctl tail :=
  tail_for_j s [0; 1; 2; 3]%nat (o0 s) (mkTail buf (r s) i l false).

(** The sixteen statements [buf[i + 0] ^= byte(o0)] ... [buf[i +15] ^= byte(o3 >>24)]. *)
Definition xor_block (s : Cipher) (buf : list Z) (i : nat) : option (list Z) :=
  buf ← xor_at buf (i + 0) (byte (o0 s));
  buf ← xor_at buf (i + 1) (byte (shr32 (o0 s) 8));
  buf ← xor_at buf (i + 2) (byte (shr32 (o0 s) 16));
  buf ← xor_at buf (i + 3) (byte (shr32 (o0 s) 24));
  buf ← xor_at buf (i + 4) (byte (o1 s));
  buf ← xor_at buf (i + 5) (byte (shr32 (o1 s) 8));
  buf ← xor_at buf (i + 6) (byte (shr32 (o1 s) 16));
  buf ← xor_at buf (i + 7) (byte (shr32 (o1 s) 24));
  buf ← xor_at buf (i + 8) (byte (o2 s));
  buf ← xor_at buf (i + 9) (byte (shr32 (o2 s) 8));
  buf ← xor_at buf (i + 10) (byte (shr32 (o2 s) 16));
  buf ← xor_at buf (i + 11) (byte (shr32 (o2 s) 24));
  buf ← xor_at buf (i + 12) (byte (o3 s));
  buf ← xor_at buf (i + 13) (byte (shr32 (o3 s) 8));
  buf ← xor_at buf (i + 14) (byte (shr32 (o3 s) 16));
  xor_at buf (i + 15) (byte (shr32 (o3 s) 24)).

(** [for i < l { c.rabbitNext(); if n := l - i; n >= 16 { ... } else { ... } }].
    [None] is a panic or the end of the fuel. *)
Fixpoint stream_loop (fuel : nat) (s : Cipher) (buf : list Z) (i l : nat)
  : option (Cipher * list Z) :=
  if (i <? l)%nat then
    match fuel with
    | O => None
    | S fuel' =>
        let s := rabbitNext s in
        if (16 <=? l - i)%nat then
          buf ← xor_block s buf i;
          stream_loop fuel' s buf (i + 16) l
        else
          match tail_loop s buf i l with
          | Fault => None
          | Return st => Some (set_r s (tr st), tb st)
          | Next st => stream_loop fuel' (set_r s (tr st)) (tb st) (ti st) (tl st)
          end
    end
  else Some (s, buf).

(** [ProcessStream] returns the cipher it leaves behind and the contents of
    the caller's buffer.  Every iteration of the main loop but the last
    consumes sixteen bytes of the buffer, so [length buf] iterations are
    enough, see [ProcessStream_eq]. *)
Definition ProcessStream (s : Cipher) (buf : list Z) : option (Cipher * list Z) :=
  let l := length buf in
  let i := 0%nat in
  let m := length (r s) in
  '(s, buf, i) ← (if (0 <? m)%nat then
                    '(buf, i) ← pending_loop m (r s) buf i m l;
                    Some (set_r s [], buf, i)
                  else Some (s, buf, i));
  stream_loop l s buf i l.

(** ** Reset operations *)

Definition ResetCipher (s : Cipher) : Cipher :=
  let s := for_range range8 (fun i s => set_c s (set (c s) i (get (cc s) i))) s in
  let s := for_range range8 (fun i s => set_x s (set (x s) i (get (cx s) i))) s in
  set_carry s (ccarry s).

(** [c.carry, c.carry = false, false]: both assignments write [carry]. *)
Definition Reset (s : Cipher) : Cipher :=
  let s := for_range range8
             (fun i s =>
                let s := set_x s (set (x s) i 0) in
                let s := set_c s (set (c s) i 0) in
                let s := set_cx s (set (cx s) i 0) in
                set_cc s (set (cc s) i 0)) s in
  let s := set_carry s false in
  set_carry s false.

(** ** Reference definitions, written from the specification *)

(** The g-function of the specification: [a] the low and [b] the high 16
    bits of [u]; [s = a*a]; [t = ((s>>17) + a*b) >> 15]; the result is
    [(t + b*b) XOR (u*u)], every sum and product reduced modulo 2^32. *)
Definition G_spec (u : Z) : Z :=
  let a := u mod 2 ^ 16 in
  let b := u / 2 ^ 16 in
  let s := (a * a) mod 2 ^ 32 in
  let t := ((s / 2 ^ 17 + (a * b) mod 2 ^ 32) mod 2 ^ 32) / 2 ^ 15 in
  Z.lxor ((t + (b * b) mod 2 ^ 32) mod 2 ^ 32) ((u * u) mod 2 ^ 32).

(** The counter update of the specification, as a sequential fold over the
    words in index order: word [i] becomes [c[i] + K i + carry_in] modulo
    2^32, and the carry into the next word (and, after the last word, the
    carry flag) is set when the new word is below the old one. *)
Fixpoint counter_chain (K : nat → Z) (i : nat) (cs : list Z) (cin : bool)
  : list Z * bool :=
  match cs with
  | [] => ([], cin)
  | ci :: cs' =>
      let ci' := (ci + K i + booltoi cin) mod 2 ^ 32 in
      let rest := counter_chain K (S i) cs' (ci' <? ci) in
      (ci' :: fst rest, snd rest)
  end.

(** Two constants alternated by the parity of the index. *)
Definition alternate (ka kb : Z) (i : nat) : Z :=
  if Nat.even i then ka else kb.

(** The three constants of the source, in the order in which
    [rabbitNext] uses them: the index taken modulo 3. *)
Definition A (i : nat) : Z :=
  match (i mod 3)%nat with
  | 0%nat => 0x4D34D34D
  | 1%nat => 0xD34D34D3
  | _ => 0x34D34D34
  end.

(** ** Sequences of operations *)

Inductive op :=
| OpSetupIV (iv : list Z)
| OpProcessStream (buf : list Z)
| OpResetCipher
| OpReset.

Definition step (s : Cipher) (o : op) : option Cipher :=
  match o with
  | OpSetupIV iv => Some (fst (SetupIV s iv))
  | OpProcessStream buf => fst <$> ProcessStream s buf
  | OpResetCipher => Some (ResetCipher s)
  | OpReset => Some (Reset s)
  end.

Fixpoint run (s : Cipher) (ops : list op) : option Cipher :=
  match ops with
  | [] => Some s
  | o :: ops' => s' ← step s o; run s' ops'
  end.

(** The calls [ProcessStream(b)] for [b] in [bufs], in order: the final
    cipher and the contents the buffers are left with. *)
Fixpoint process_all (s : Cipher) (bufs : list (list Z))
  : option (Cipher * list (list Z)) :=
  match bufs with
  | [] => Some (s, [])
  | b :: bufs' =>
      '(s', out) ← ProcessStream s b;
      '(s'', outs) ← process_all s' bufs';
      Some (s'', out :: outs)
  end.

(** ** Test data *)

Definition zero_key : list Z := repeat 0 16%nat.
Definition zero_iv : list Z := repeat 0 8%nat.

(** The cipher [NewCipher] returns for the all-zero key. *)
Definition zero_key_cipher : Cipher :=
  match NewCipher zero_key with
  | inl s => s
  | inr _ => zeroCipher
  end.

(** ** Functions and predicates used in the statements *)

(** The warm-up loop, [for i := 0; i < 4; i++ { c.rabbitNext() }]. *)
Definition warmup (s : Cipher) : Cipher :=
  for_range [0; 1; 2; 3]%nat (fun _ s => rabbitNext s) s.

(** The live part of the state of a round depends on the live part only. *)
Definition live (s : Cipher) : arr8 * arr8 * bool := (x s, c s, carry s).
Definition master (s : Cipher) : arr8 * arr8 * bool := (cx s, cc s, ccarry s).

(** The counter [SetupIV] derives from the master counter and the IV. *)
Definition iv_counter (m : arr8) (iv : list Z) : arr8 :=
  let d0 := le32 iv 0 in
  let d2 := le32 iv 4 in
  let d1 := Z.lor (shr32 d0 16) (Z.land d2 0xFFFF0000) in
  let d3 := Z.lor (shl32 d2 16) (Z.land d0 0x0000FFFF) in
  Arr8 (Z.lxor (a0 m) d0) (Z.lxor (a1 m) d1) (Z.lxor (a2 m) d2) (Z.lxor (a3 m) d3)
       (Z.lxor (a4 m) d0) (Z.lxor (a5 m) d1) (Z.lxor (a6 m) d2) (Z.lxor (a7 m) d3).

(** The buffer after the loop over the pending bytes: bytes are XORed with
    the pending bytes while both last. *)
Fixpoint xor_prefix (buf pend : list Z) : list Z :=
  match buf, pend with
  | v :: buf', p :: pend' => Z.lxor v p :: xor_prefix buf' pend'
  | _, _ => buf
  end.

(** The sixteen keystream bytes of a round, the four words low byte first. *)
Definition ks_block (s : Cipher) : list Z :=
  [byte (o0 s); byte (shr32 (o0 s) 8); byte (shr32 (o0 s) 16); byte (shr32 (o0 s) 24);
   byte (o1 s); byte (shr32 (o1 s) 8); byte (shr32 (o1 s) 16); byte (shr32 (o1 s) 24);
   byte (o2 s); byte (shr32 (o2 s) 8); byte (shr32 (o2 s) 16); byte (shr32 (o2 s) 24);
   byte (o3 s); byte (shr32 (o3 s) 8); byte (shr32 (o3 s) 16); byte (shr32 (o3 s) 24)].

(** The main loop on the part of the buffer still to be processed: whole
    blocks are XORed with the keystream of one round each; a last partial
    block takes a prefix of the keystream of one more round, whose suffix
    becomes the pending bytes. *)
Fixpoint keystream_loop (fuel : nat) (s : Cipher) (rest : list Z) : Cipher * list Z :=
  match rest, fuel with
  | [], _ => (s, [])
  | _, O => (s, rest)
  | _, S fuel' =>
      let s := rabbitNext s in
      if (16 <=? length rest)%nat then
        let res := keystream_loop fuel' s (drop 16 rest) in
        (fst res, zip_with Z.lxor (take 16 rest) (ks_block s) ++ snd res)
      else
        (set_r s (drop (length rest) (ks_block s)), zip_with Z.lxor rest (ks_block s))
  end.

Definition process_fun (s : Cipher) (buf : list Z) : Cipher * list Z :=
  let k := (length (r s) `min` length buf)%nat in
  let b := xor_prefix buf (r s) in
  let res := keystream_loop (length buf) (set_r s []) (drop k b) in
  (fst res, take k b ++ snd res).

(** One iteration of the innermost loop, given the keystream byte and the
    number of keystream bytes that follow it in the block. *)
Definition tail_step (kb : Z) (rem : nat) (st : tail) : ctl tail :=
  match xor_at (if tf st then tr st else tb st) (ti st) kb with
  | None => Fault
  | Some b' =>
      let st := if tf st then mkTail (tb st) b' (ti st) (tl st) (tf st)
                else mkTail b' (tr st) (ti st) (tl st) (tf st) in
      let st := mkTail (tb st) (tr st) (S (ti st)) (tl st) (tf st) in
      if negb (tf st) && (tl st <=? ti st)%nat then
        if (rem =? 0)%nat then Return (mkTail (tb st) (tr st) (ti st) rem (tf st))
        else Next (mkTail (tb st) (repeat 0 rem) 0 rem true)
      else Next st
  end.

Fixpoint run_steps (ks : list Z) (st : tail) : ctl tail :=
  match ks with
  | [] => Next st
  | kb :: ks' => ctl_bind (tail_step kb (length ks') st) (run_steps ks')
  end.

Definition aligned (b : list Z) : Prop := ∃ n : nat, length b = (16 * n)%nat.

(** The cipher for the all-zero key after one byte has been processed:
    fifteen bytes of the first keystream block are pending. *)
Definition used_cipher : Cipher :=
  match ProcessStream zero_key_cipher [0] with
  | Some (s, _) => s
  | None => zero_key_cipher
  end.

Definition sample_ops : list op :=
  [OpProcessStream [0; 0; 0]; OpSetupIV zero_iv; OpProcessStream (repeat 0 20%nat);
   OpResetCipher; OpProcessStream []; OpReset; OpProcessStream [1]].

(** ** Well-formed values *)

(** A [uint32] value and a [byte] value. *)
Definition is_u32 (v : Z) : Prop := 0 ≤ v < 2 ^ 32.
Definition is_byte (v : Z) : Prop := 0 ≤ v < 2 ^ 8.

(** Every element of an array is a [uint32] value. *)
Definition arr8_ok (a : arr8) : Prop := Forall is_u32 (to_list a).

(** The values of the fields of a cipher are values of their Go types, and
    fewer than sixteen bytes are pending. *)
Definition cipher_ok (s : Cipher) : Prop :=
  arr8_ok (x s) ∧ arr8_ok (c s) ∧ arr8_ok (cx s) ∧ arr8_ok (cc s) ∧
  Forall is_byte (r s) ∧ (length (r s) < 16)%nat.

(** ** The parts of the key schedule *)

(** The cipher [NewCipher] has built when it enters the warm-up loop. *)
Definition key_init (key : list Z) : Cipher :=
  let s := zeroCipher in
  let k0 := le32 key 0 in
  let k1 := le32 key 4 in
  let k2 := le32 key 8 in
  let k3 := le32 key 12 in
  let s := set_x s (set (x s) 0 k0) in
  let s := set_x s (set (x s) 2 k1) in
  let s := set_x s (set (x s) 4 k2) in
  let s := set_x s (set (x s) 6 k3) in
  let s := set_x s (set (x s) 1 (Z.lor (shl32 k3 16) (shr32 k2 16))) in
  let s := set_x s (set (x s) 3 (Z.lor (shl32 k0 16) (shr32 k3 16))) in
  let s := set_x s (set (x s) 5 (Z.lor (shl32 k1 16) (shr32 k0 16))) in
  let s := set_x s (set (x s) 7 (Z.lor (shl32 k2 16) (shr32 k1 16))) in
  let s := set_c s (set (c s) 0 (rotl k2 16)) in
  let s := set_c s (set (c s) 2 (rotl k3 16)) in
  let s := set_c s (set (c s) 4 (rotl k0 16)) in
  let s := set_c s (set (c s) 6 (rotl k1 16)) in
  let s := set_c s (set (c s) 1 (Z.lor (Z.land k0 0xFFFF0000) (Z.land k1 0xFFFF))) in
  let s := set_c s (set (c s) 3 (Z.lor (Z.land k1 0xFFFF0000) (Z.land k2 0xFFFF))) in
  let s := set_c s (set (c s) 5 (Z.lor (Z.land k2 0xFFFF0000) (Z.land k3 0xFFFF))) in
  let s := set_c s (set (c s) 7 (Z.lor (Z.land k3 0xFFFF0000) (Z.land k0 0xFFFF))) in
  set_carry s false.

(** What [NewCipher] does after the warm-up loop: the counter is mixed
    with the state, and the master snapshot is taken. *)
Definition key_finish (s : Cipher) : Cipher :=
  let s := for_range range8
             (fun i s => set_c s (set (c s) i
                (Z.lxor (get (c s) i) (get (x s) (Z.to_nat (Z.land (Z.of_nat i + 4) 0x7)))))) s in
  let s := for_range range8
             (fun i s =>
                let s := set_cx s (set (cx s) i (get (x s) i)) in
                set_cc s (set (cc s) i (get (c s) i))) s in
  set_ccarry s (carry s).

(** [c[i] ^ x[(i+4)&7]] for each [i]. *)
Definition mix (cs xs : arr8) : arr8 :=
  Arr8 (Z.lxor (a0 cs) (a4 xs)) (Z.lxor (a1 cs) (a5 xs))
       (Z.lxor (a2 cs) (a6 xs)) (Z.lxor (a3 cs) (a7 xs))
       (Z.lxor (a4 cs) (a0 xs)) (Z.lxor (a5 cs) (a1 xs))
       (Z.lxor (a6 cs) (a2 xs)) (Z.lxor (a7 cs) (a3 xs)).

(** ** Keystream generation into a block *)

(** [rabbitGen] writes the sixteen keystream bytes of the next round into
    the array [buf] points to (an array of sixteen bytes, by its type) and
    returns the cipher it leaves and the array. *)
Definition rabbitGen (s : Cipher) (buf : list Z) : Cipher * list Z :=
  let s := rabbitNext s in
  let d0 := Z.lxor (get (x s) 0) (Z.lxor (shr32 (get (x s) 5) 16) (shl32 (get (x s) 3) 16)) in
  let d1 := Z.lxor (get (x s) 2) (Z.lxor (shr32 (get (x s) 7) 16) (shl32 (get (x s) 5) 16)) in
  let d2 := Z.lxor (get (x s) 4) (Z.lxor (shr32 (get (x s) 1) 16) (shl32 (get (x s) 7) 16)) in
  let d3 := Z.lxor (get (x s) 6) (Z.lxor (shr32 (get (x s) 3) 16) (shl32 (get (x s) 1) 16)) in
  let buf := <[0%nat := byte d0]> buf in
  let buf := <[1%nat := byte (shr32 d0 8)]> buf in
  let buf := <[2%nat := byte (shr32 d0 16)]> buf in
  let buf := <[3%nat := byte (shr32 d0 24)]> buf in
  let buf := <[4%nat := byte d1]> buf in
  let buf := <[5%nat := byte (shr32 d1 8)]> buf in
  let buf := <[6%nat := byte (shr32 d1 16)]> buf in
  let buf := <[7%nat := byte (shr32 d1 24)]> buf in
  let buf := <[8%nat := byte d2]> buf in
  let buf := <[9%nat := byte (shr32 d2 8)]> buf in
  let buf := <[10%nat := byte (shr32 d2 16)]> buf in
  let buf := <[11%nat := byte (shr32 d2 24)]> buf in
  let buf := <[12%nat := byte d3]> buf in
  let buf := <[13%nat := byte (shr32 d3 8)]> buf in
  let buf := <[14%nat := byte (shr32 d3 16)]> buf in
  let buf := <[15%nat := byte (shr32 d3 24)]> buf in
  (s, buf).

(** The number of rounds a call runs for [n] bytes beyond the pending
    ones, and the number of bytes it leaves pending. *)
Definition rounds (n : nat) : nat := ((n + 15) / 16)%nat.
Definition leftover (n : nat) : nat := ((16 - n mod 16) mod 16)%nat.

(** An operation other than [Reset]. *)
Definition keeps_key (o : op) : Prop :=
  match o with
  | OpReset => False
  | _ => True
  end.

(** ** Error messages *)

(** [func (k *KeySizeError) String() string].  [strconv.Itoa] writes the
    decimal digits of its argument, as stdpp's [pretty] does; the sizes the
    package stores are lengths, so there is no sign. *)
Definition KeySizeError_String (k : KeySizeError) : string :=
  match t k with
  | 1 => "crypto/rabbit: invalid key size " +:+ pretty (sz k)
  | 2 => "crypto/rabbit: invalid iv size " +:+ pretty (sz k)
  | _ => "crypto/rabbit: unknown key error type"
  end.

(** * Properties *)

Local Arguments rabbitNext : simpl never.
Local Arguments le32 : simpl never.
Local Arguments rotl : simpl never.
Local Arguments Z.lxor : simpl never.
Local Arguments Z.lor : simpl never.
Local Arguments Z.land : simpl never.

(** ** Known answers *)

(** The first keystream block for the all-zero key without IV, and for the
    all-zero key with the all-zero IV, as published with the algorithm. *)
Example known_answer_zero_key :
  snd <$> ProcessStream zero_key_cipher (repeat 0 16%nat) =
  Some [0x02; 0xF7; 0x4A; 0x1C; 0x26; 0x45; 0x6B; 0xF5;
        0xEC; 0xD6; 0xA5; 0x36; 0xF0; 0x54; 0x57; 0xB1].
Proof. vm_compute. reflexivity. Qed.

Example known_answer_zero_iv :
  snd <$> ProcessStream (fst (SetupIV zero_key_cipher zero_iv)) (repeat 0 16%nat) =
  Some [0xED; 0xB7; 0x05; 0x67; 0x37; 0x5D; 0xCD; 0x7C;
        0xD8; 0x95; 0x54; 0xF8; 0x5E; 0x27; 0xA7; 0xC6].
Proof. vm_compute. reflexivity. Qed.

(** ** The g-function *)

(** C9: for every input [u], [rabbitCalcG u] is the g-function of the
    specification: with [a] the low and [b] the high 16 bits of [u], it is
    [(((a*a >> 17) + a*b) >> 15) + b*b] XOR [u*u], all arithmetic modulo
    2^32. *)
Theorem rabbitCalcG_spec (u : Z) : rabbitCalcG u = G_spec u.
Proof.
  unfold rabbitCalcG, G_spec, add32, mul32, shr32, u32.
  change 0xFFFF with (Z.ones 16).
  rewrite Z.land_ones by lia.
  rewrite !Z.shiftr_div_pow2 by lia.
  reflexivity.
Qed.

(** On a 32-bit input only the square [u*u] wraps: the other sums and
    products stay below 2^32. *)
Lemma rabbitCalcG_no_wrap (u : Z) :
  0 ≤ u < 2 ^ 32 →
  let a := u mod 2 ^ 16 in
  let b := u / 2 ^ 16 in
  rabbitCalcG u =
    Z.lxor (((a * a) / 2 ^ 17 + a * b) / 2 ^ 15 + b * b) ((u * u) mod 2 ^ 32).
Proof.
  intros Hu a b. unfold rabbitCalcG, add32, mul32, shr32, u32. cbv zeta.
  change 0xFFFF with (Z.ones 16).
  rewrite Z.land_ones by lia.
  rewrite !Z.shiftr_div_pow2 by lia. fold a b.
  assert (Ha : 0 ≤ a < 2 ^ 16) by (apply Z.mod_pos_bound; lia).
  assert (Hb : 0 ≤ b < 2 ^ 16).
  { split; [apply Z.div_pos; lia|]. apply Z.div_lt_upper_bound; lia. }
  assert (Haa : 0 ≤ a * a ≤ (2 ^ 16 - 1) * (2 ^ 16 - 1)) by nia.
  assert (Hab : 0 ≤ a * b ≤ (2 ^ 16 - 1) * (2 ^ 16 - 1)) by nia.
  assert (Hbb : 0 ≤ b * b ≤ (2 ^ 16 - 1) * (2 ^ 16 - 1)) by nia.
  rewrite (Z.mod_small (a * a)) by lia.
  rewrite (Z.mod_small (a * b)) by lia.
  rewrite (Z.mod_small (b * b)) by lia.
  assert (Hs : 0 ≤ a * a / 2 ^ 17 < 2 ^ 15).
  { split; [apply Z.div_pos; lia|]. apply Z.div_lt_upper_bound; lia. }
  rewrite (Z.mod_small (a * a / 2 ^ 17 + a * b)) by lia.
  assert (Ht : 0 ≤ (a * a / 2 ^ 17 + a * b) / 2 ^ 15 < 2 ^ 17 - 2).
  { split; [apply Z.div_pos; lia|]. apply Z.div_lt_upper_bound; lia. }
  rewrite (Z.mod_small (_ + b * b)) by lia.
  reflexivity.
Qed.

(** ** The counter update of the round function *)

Lemma add32_add32 (a b d : Z) : add32 (add32 a b) d = (a + b + d) mod 2 ^ 32.
Proof. unfold add32, u32. apply Zplus_mod_idemp_l. Qed.

Lemma rabbitNext_c (s : Cipher) :
  c (rabbitNext s) =
    let c0 := (a0 (c s) + 0x4D34D34D + booltoi (carry s)) mod 2 ^ 32 in
    let c1 := (a1 (c s) + 0xD34D34D3 + booltoi (c0 <? a0 (c s))) mod 2 ^ 32 in
    let c2 := (a2 (c s) + 0x34D34D34 + booltoi (c1 <? a1 (c s))) mod 2 ^ 32 in
    let c3 := (a3 (c s) + 0x4D34D34D + booltoi (c2 <? a2 (c s))) mod 2 ^ 32 in
    let c4 := (a4 (c s) + 0xD34D34D3 + booltoi (c3 <? a3 (c s))) mod 2 ^ 32 in
    let c5 := (a5 (c s) + 0x34D34D34 + booltoi (c4 <? a4 (c s))) mod 2 ^ 32 in
    let c6 := (a6 (c s) + 0x4D34D34D + booltoi (c5 <? a5 (c s))) mod 2 ^ 32 in
    let c7 := (a7 (c s) + 0xD34D34D3 + booltoi (c6 <? a6 (c s))) mod 2 ^ 32 in
    Arr8 c0 c1 c2 c3 c4 c5 c6 c7.
Proof.
  unfold rabbitNext. cbn [c set_c set_x set_carry get carry].
  rewrite !add32_add32. reflexivity.
Qed.

Lemma rabbitNext_carry (s : Cipher) :
  carry (rabbitNext s) = (a7 (c (rabbitNext s)) <? a7 (c s)).
Proof.
  rewrite rabbitNext_c. unfold rabbitNext.
  cbn [c set_c set_x set_carry get carry a7].
  rewrite !add32_add32. reflexivity.
Qed.

(** C4 (as the code has it): [rabbitNext] updates the eight counter words
    in index order 0..7, adding to [c[i]] the constant [A i] (one of the
    three constants 0x4D34D34D, 0xD34D34D3, 0x34D34D34, chosen by [i] modulo
    3) and a carry-in, which for word 0 is the carry flag of the previous
    round and for word [i > 0] is 1 exactly when the new [c[i-1]] is below
    its old value; the carry flag is then set exactly when the new [c[7]]
    is below its old value. *)
Theorem rabbitNext_counter (s : Cipher) :
  counter_chain A 0 (to_list (c s)) (carry s) =
    (to_list (c (rabbitNext s)), carry (rabbitNext s)).
Proof.
  rewrite rabbitNext_carry, rabbitNext_c.
  reflexivity.
Qed.

(** C4 (as the specification has it) fails: no two constants alternated by
    the parity of the index give the counter that [rabbitNext] computes
    from the all-zero state, the first state [NewCipher] steps from under
    the all-zero key.  Words 0 and 2 are both even, yet the code adds
    0x4D34D34D to the one and 0x34D34D34 to the other. *)
Lemma rabbitNext_counter_not_alternating :
  ¬ ∃ ka kb : Z,
      counter_chain (alternate ka kb) 0 (to_list (c zeroCipher)) (carry zeroCipher) =
        (to_list (c (rabbitNext zeroCipher)), carry (rabbitNext zeroCipher)).
Proof.
  intros (ka & kb & H).
  assert (Hlt : ∀ v w : Z, ((v + w) mod 2 ^ 32 <? 0) = false).
  { intros v w. apply Z.ltb_ge. apply Z.mod_pos_bound. lia. }
  rewrite rabbitNext_c in H.
  cbn [counter_chain to_list zeroCipher zero8 c carry a0 a1 a2 a3 a4 a5 a6 a7
       alternate Nat.even fst snd] in H.
  apply (f_equal fst) in H. cbn [fst] in H.
  injection H as H0 H1 H2 _.
  rewrite !Z.add_0_l in H0, H2. cbn [booltoi] in H0.
  rewrite Hlt in H2. cbn [booltoi] in H2.
  rewrite H0 in H2. vm_compute in H2. discriminate H2.
Qed.

(** On counter words in range, "the new word is below the old one" is the
    unsigned overflow of the addition. *)
Lemma wrap_detects_overflow (ci k : Z) (cin : bool) :
  0 ≤ ci < 2 ^ 32 → 0 ≤ k → k + 1 < 2 ^ 32 →
  ((ci + k + booltoi cin) mod 2 ^ 32 <? ci) = (2 ^ 32 <=? ci + k + booltoi cin).
Proof.
  intros Hc Hk Hk'.
  assert (Hb : 0 ≤ booltoi cin ≤ 1) by (destruct cin; simpl; lia).
  destruct (Z.leb_spec (2 ^ 32) (ci + k + booltoi cin)) as [Hge | Hlt].
  - apply Z.ltb_lt.
    replace (ci + k + booltoi cin) with ((ci + k + booltoi cin - 2 ^ 32) + 1 * 2 ^ 32) by lia.
    rewrite Z.mod_add by lia. rewrite Z.mod_small by lia. lia.
  - apply Z.ltb_ge. rewrite Z.mod_small by lia. lia.
Qed.

(** ** What each operation leaves alone *)

Lemma rabbitNext_live (s s' : Cipher) :
  live s = live s' → live (rabbitNext s) = live (rabbitNext s').
Proof.
  destruct s as [x1 c1 cx1 cc1 ca1 cca1 r1], s' as [x2 c2 cx2 cc2 ca2 cca2 r2].
  unfold live. cbn [x c carry]. intros [= -> -> ->].
  unfold rabbitNext.
  cbv beta iota zeta delta [set_x set_c set_carry x c cx cc carry ccarry r get set
                            a0 a1 a2 a3 a4 a5 a6 a7].
  reflexivity.
Qed.

Lemma eq_by_parts (s s' : Cipher) :
  live s = live s' → master s = master s' → r s = r s' → s = s'.
Proof.
  destruct s, s'. unfold live, master. cbn. intros [= -> -> ->] [= -> -> ->] ->.
  reflexivity.
Qed.

Lemma warmup_live (s s' : Cipher) :
  live s = live s' → live (warmup s) = live (warmup s').
Proof.
  intros H. unfold warmup, for_range. cbn [fold_left].
  do 4 apply rabbitNext_live. exact H.
Qed.

(** With an IV of 8 bytes [SetupIV] is the warm-up of the master snapshot
    under the IV; the live state it is called on is not read. *)
Lemma SetupIV_valid (s : Cipher) (iv : list Z) :
  length iv = 8%nat →
  SetupIV s iv =
    (warmup (mkCipher (cx s) (iv_counter (cc s) iv) (cx s) (cc s)
                      (ccarry s) (ccarry s) (r s)), None).
Proof.
  intros Hlen. unfold SetupIV, warmup, iv_counter. rewrite Hlen.
  destruct s as [x0 c0 cx0 cc0 ca cca r0]. destruct cx0, cc0.
  cbv beta iota zeta delta
    [negb Nat.eqb for_range fold_left range8 set_c set_x set_carry set get
     x c cx cc carry ccarry r a0 a1 a2 a3 a4 a5 a6 a7].
  reflexivity.
Qed.

Lemma SetupIV_invalid (s : Cipher) (iv : list Z) :
  length iv ≠ 8%nat →
  SetupIV s iv = (s, Some (mkKeySizeError 2 (length iv))).
Proof.
  intros Hlen. unfold SetupIV.
  destruct (Nat.eqb_spec (length iv) 8) as [E | _]; [contradiction | reflexivity].
Qed.

Lemma SetupIV_frame (s : Cipher) (iv : list Z) :
  master (fst (SetupIV s iv)) = master s ∧ r (fst (SetupIV s iv)) = r s.
Proof.
  destruct (decide (length iv = 8%nat)) as [E | E].
  - rewrite SetupIV_valid by exact E. split; reflexivity.
  - rewrite SetupIV_invalid by exact E. split; reflexivity.
Qed.

Lemma ResetCipher_eq (s : Cipher) :
  ResetCipher s = mkCipher (cx s) (cc s) (cx s) (cc s) (ccarry s) (ccarry s) (r s).
Proof.
  unfold ResetCipher.
  destruct s as [x0 c0 cx0 cc0 ca cca r0]. destruct cx0, cc0.
  cbv beta iota zeta delta
    [for_range fold_left range8 set_c set_x set_carry set get
     x c cx cc carry ccarry r a0 a1 a2 a3 a4 a5 a6 a7].
  reflexivity.
Qed.

(** What [Reset] does: the four arrays are zeroed and [carry] is cleared;
    [ccarry] and [r] are as before. *)
Lemma Reset_eq (s : Cipher) :
  Reset s = mkCipher zero8 zero8 zero8 zero8 false (ccarry s) (r s).
Proof. reflexivity. Qed.

(** ** IV setup is idempotent *)

(** The live state [SetupIV] leaves is a function of the master snapshot
    and the IV. *)
Lemma SetupIV_live_from_master (s s' : Cipher) (iv : list Z) :
  length iv = 8%nat → master s' = master s →
  live (fst (SetupIV s' iv)) = live (fst (SetupIV s iv)).
Proof.
  intros Hlen Hm. rewrite !SetupIV_valid by exact Hlen. cbn [fst].
  unfold master in Hm. injection Hm as -> -> ->.
  apply warmup_live. reflexivity.
Qed.

(** C7: for every cipher and every IV of 8 bytes, a second [SetupIV] with
    the same IV succeeds like the first and leaves the same [x], [c] and
    [carry]; more generally the [x], [c] and [carry] that [SetupIV] leaves
    are the same from any two ciphers with the same master snapshot
    ([cx], [cc], [ccarry]), whatever their live [x], [c] and [carry], and
    [SetupIV] does not change the master snapshot. *)
Theorem SetupIV_idempotent (s : Cipher) (iv : list Z) :
  length iv = 8%nat →
  let s1 := fst (SetupIV s iv) in
  let s2 := fst (SetupIV s1 iv) in
  snd (SetupIV s iv) = None ∧ snd (SetupIV s1 iv) = None ∧
  x s2 = x s1 ∧ c s2 = c s1 ∧ carry s2 = carry s1 ∧
  master s1 = master s ∧
  ∀ s' : Cipher, master s' = master s →
    live (fst (SetupIV s' iv)) = live s1.
Proof.
  intros Hlen s1 s2.
  assert (Hm1 : master s1 = master s) by apply SetupIV_frame.
  pose proof (SetupIV_live_from_master s s1 iv Hlen Hm1) as H2.
  fold s1 s2 in H2. unfold live in H2. injection H2 as Hx Hc Hca.
  split; [rewrite SetupIV_valid by exact Hlen; reflexivity |].
  split; [rewrite SetupIV_valid by exact Hlen; reflexivity |].
  repeat (split; [assumption |]).
  intros s' Hm. apply SetupIV_live_from_master; assumption.
Qed.

(** ** The stream processor as a function *)

Lemma xor_at_middle (pre post : list Z) (v k : Z) :
  xor_at (pre ++ v :: post) (length pre) k = Some (pre ++ Z.lxor v k :: post).
Proof.
  unfold xor_at. rewrite list_lookup_middle by reflexivity. cbn.
  f_equal. replace (length pre) with (length pre + 0)%nat by lia.
  rewrite insert_app_r. reflexivity.
Qed.

Lemma xor_at_app_r (pre l : list Z) (i : nat) (k : Z) :
  xor_at (pre ++ l) (length pre + i) k = (app pre) <$> xor_at l i k.
Proof.
  unfold xor_at. rewrite lookup_app_r by lia.
  replace (length pre + i - length pre)%nat with i by lia.
  destruct (l !! i) as [v |]; cbn; [| reflexivity].
  rewrite insert_app_r. reflexivity.
Qed.

Lemma xor_prefix_nil_r (buf : list Z) : xor_prefix buf [] = buf.
Proof. destruct buf; reflexivity. Qed.

Lemma xor_prefix_length (buf pend : list Z) :
  length (xor_prefix buf pend) = length buf.
Proof.
  revert pend. induction buf as [| v buf IH]; intros [| p pend]; cbn; auto.
Qed.

Lemma xor_prefix_lookup (buf pend : list Z) (i : nat) (v p : Z) :
  buf !! i = Some v → pend !! i = Some p →
  xor_prefix buf pend !! i = Some (Z.lxor v p).
Proof.
  revert pend i. induction buf as [| w buf IH]; intros [| q pend] [| i]; cbn;
    try discriminate.
  - intros [= ->] [= ->]. reflexivity.
  - apply IH.
Qed.

Lemma pending_loop_spec (pend_rest : list Z) :
  ∀ (fuel : nat) (pend_pre buf_pre buf_rest : list Z),
    length pend_pre = length buf_pre →
    (length pend_rest ≤ fuel)%nat →
    pending_loop fuel (pend_pre ++ pend_rest) (buf_pre ++ buf_rest)
      (length buf_pre) (length (pend_pre ++ pend_rest)) (length (buf_pre ++ buf_rest)) =
    Some (buf_pre ++ xor_prefix buf_rest pend_rest,
          (length buf_pre + length pend_rest `min` length buf_rest)%nat).
Proof.
  induction pend_rest as [| p pend_rest IH]; intros fuel pend_pre buf_pre buf_rest Hpre Hfuel.
  - rewrite xor_prefix_nil_r, app_nil_r.
    assert (E : (length buf_pre <? length pend_pre)%nat = false)
      by (apply Nat.ltb_ge; lia).
    change (length (@nil Z)) with 0%nat. rewrite Nat.min_0_l, Nat.add_0_r.
    destruct fuel; cbn [pending_loop]; rewrite E; reflexivity.
  - destruct buf_rest as [| v buf_rest].
    + cbn [xor_prefix]. rewrite !app_nil_r.
      assert (E : (length buf_pre <? length buf_pre)%nat = false)
        by (apply Nat.ltb_ge; lia).
      change (length (@nil Z)) with 0%nat. rewrite Nat.min_0_r, Nat.add_0_r.
      destruct fuel; cbn [pending_loop]; rewrite E, andb_false_r; reflexivity.
    + destruct fuel as [| fuel]; [cbn in Hfuel; lia |].
      cbn [pending_loop].
      assert (E1 : (length buf_pre <? length (pend_pre ++ p :: pend_rest))%nat = true)
        by (apply Nat.ltb_lt; rewrite length_app; cbn; lia).
      assert (E2 : (length buf_pre <? length (buf_pre ++ v :: buf_rest))%nat = true)
        by (apply Nat.ltb_lt; rewrite length_app; cbn; lia).
      rewrite E1, E2. cbn [andb].
      rewrite list_lookup_middle by lia. cbn [mbind option_bind].
      rewrite xor_at_middle. cbn [mbind option_bind].
      specialize (IH fuel (pend_pre ++ [p]) (buf_pre ++ [Z.lxor v p]) buf_rest).
      rewrite <- !(assoc_L (++)) in IH. cbn [app] in IH.
      rewrite !length_app in IH. cbn [length] in IH.
      replace (S (length buf_pre)) with (length buf_pre + 1)%nat by lia.
      rewrite !length_app. cbn [length].
      rewrite IH by (cbn [length] in Hfuel; lia).
      cbn [xor_prefix length]. rewrite <- Nat.succ_min_distr.
      f_equal. f_equal. lia.
Qed.

(** *** The loop over the last, partial block *)

Ltac tail_next :=
  cbn [ctl_bind];
  match goal with
  | |- ctl_bind (ctl_bind (tail_body ?z ?j ?k ?st) _) _ =
       ctl_bind (tail_step ?kb ?rem ?st) _ =>
      change (tail_body z j k st) with (tail_step kb rem st);
      destruct (tail_step kb rem st); cbn [ctl_bind]; try reflexivity
  | |- ctl_bind (tail_body ?z ?j ?k ?st) _ = ctl_bind (tail_step ?kb ?rem ?st) _ =>
      change (tail_body z j k st) with (tail_step kb rem st);
      destruct (tail_step kb rem st); cbn [ctl_bind]; try reflexivity
  end.

(** The two nested loops run the sixteen keystream bytes in order. *)
Lemma tail_loop_run (s : Cipher) (buf : list Z) (i l : nat) :
  tail_loop s buf i l = run_steps (ks_block s) (mkTail buf (r s) i l false).
Proof.
  unfold tail_loop, ks_block.
  cbn [tail_for_j tail_for_k run_steps length].
  do 16 tail_next.
Qed.
(** Once the buffer is exhausted the remaining keystream bytes fill [c.r]. *)
Lemma run_steps_fill (ks : list Z) :
  ∀ (pre buf : list Z) (l : nat),
    run_steps ks (mkTail buf (pre ++ repeat 0 (length ks)) (length pre) l true) =
    Next (mkTail buf (pre ++ ks) (length pre + length ks) l true).
Proof.
  induction ks as [| kb ks IH]; intros pre buf l.
  - cbn. rewrite !app_nil_r, Nat.add_0_r. reflexivity.
  - cbn [run_steps length repeat]. unfold tail_step at 1.
    cbn [tf tr tb ti tl]. rewrite xor_at_middle.
    cbn [tf tr tb ti tl negb andb ctl_bind]. rewrite Z.lxor_0_l.
    specialize (IH (pre ++ [kb]) buf l).
    rewrite <- !(assoc_L (++)), length_app in IH. cbn [app length] in IH.
    replace (S (length pre)) with (length pre + 1)%nat by lia.
    rewrite IH. do 2 f_equal. lia.
Qed.

(** While the buffer lasts the keystream bytes are XORed into it; the byte
    that exhausts it switches the loop over to [c.r]. *)
Lemma run_steps_drain (ks : list Z) :
  ∀ (pre rest r0 : list Z),
    rest ≠ [] → (length rest < length ks)%nat →
    run_steps ks (mkTail (pre ++ rest) r0 (length pre) (length pre + length rest) false) =
    Next (mkTail (pre ++ zip_with Z.lxor rest ks) (drop (length rest) ks)
                 (length ks - length rest) (length ks - length rest) true).
Proof.
  induction ks as [| kb ks IH]; intros pre rest r0 Hne Hlen.
  - cbn in Hlen. lia.
  - destruct rest as [| v rest]; [contradiction |].
    cbn [run_steps]. unfold tail_step at 1.
    cbn [tf tr tb ti tl]. rewrite xor_at_middle.
    cbn [tf tr tb ti tl negb andb ctl_bind length].
    destruct rest as [| w rest].
    + assert (E : (length pre + 1 <=? S (length pre))%nat = true)
        by (apply Nat.leb_le; lia).
      cbn [length]. rewrite E.
      destruct ks as [| kb' ks]; [cbn in Hlen; lia |].
      cbn [length Nat.eqb ctl_bind].
      pose proof (run_steps_fill (kb' :: ks) [] (pre ++ [Z.lxor v kb]) (S (length ks)))
        as Hfill.
      cbn [app length Nat.add] in Hfill. rewrite Hfill.
      cbn [zip_with drop length Nat.sub]. reflexivity.
    + assert (E : (length pre + S (length (w :: rest)) <=? S (length pre))%nat = false)
        by (apply Nat.leb_gt; cbn; lia).
      rewrite E. cbn [ctl_bind].
      specialize (IH (pre ++ [Z.lxor v kb]) (w :: rest) r0).
      rewrite <- !(assoc_L (++)), length_app in IH. cbn [app length] in IH.
      replace (S (length pre)) with (length pre + 1)%nat by lia.
      replace (length pre + S (length (w :: rest)))%nat
        with (length pre + 1 + S (length rest))%nat by (cbn; lia).
      cbn [length] in Hlen.
      rewrite IH by (try discriminate; lia).
      cbn [zip_with drop length Nat.sub]. reflexivity.
Qed.

Lemma tail_loop_spec (s : Cipher) (pre rest : list Z) :
  rest ≠ [] → (length rest < 16)%nat →
  tail_loop s (pre ++ rest) (length pre) (length pre + length rest) =
  Next (mkTail (pre ++ zip_with Z.lxor rest (ks_block s))
               (drop (length rest) (ks_block s))
               (16 - length rest) (16 - length rest) true).
Proof.
  intros Hne Hlen. rewrite tail_loop_run.
  apply (run_steps_drain (ks_block s)); [exact Hne | exact Hlen].
Qed.

(** *** Whole blocks *)

Lemma xor_block_spec (s : Cipher) (pre blk post : list Z) :
  length blk = 16%nat →
  xor_block s (pre ++ blk ++ post) (length pre) =
  Some (pre ++ zip_with Z.lxor blk (ks_block s) ++ post).
Proof.
  intros Hlen.
  do 16 (destruct blk as [| ? blk]; [discriminate Hlen |]).
  destruct blk; [| discriminate Hlen].
  unfold xor_block, ks_block.
  repeat (rewrite xor_at_app_r; cbn [xor_at lookup list_lookup insert list_insert app
                                    fmap option_fmap option_map mbind option_bind]).
  reflexivity.
Qed.

(** *** The main loop *)

Lemma stream_loop_done (fuel : nat) (s : Cipher) (buf : list Z) (i l : nat) :
  (l ≤ i)%nat → stream_loop fuel s buf i l = Some (s, buf).
Proof.
  intros H. assert (E : (i <? l)%nat = false) by (apply Nat.ltb_ge; lia).
  destruct fuel; cbn [stream_loop]; rewrite E; reflexivity.
Qed.

Lemma stream_loop_spec (fuel : nat) :
  ∀ (s : Cipher) (pre rest : list Z),
    (length rest ≤ fuel)%nat →
    stream_loop fuel s (pre ++ rest) (length pre) (length pre + length rest) =
    Some (fst (keystream_loop fuel s rest), pre ++ snd (keystream_loop fuel s rest)).
Proof.
  induction fuel as [| fuel IH]; intros s pre rest Hfuel.
  - destruct rest; [| cbn in Hfuel; lia].
    rewrite stream_loop_done by (cbn; lia). reflexivity.
  - destruct rest as [| v rest].
    { rewrite stream_loop_done by (cbn; lia). reflexivity. }
    set (rest' := v :: rest) in *.
    assert (Hne : rest' ≠ []) by discriminate.
    assert (E : (length pre <? length pre + length rest')%nat = true)
      by (apply Nat.ltb_lt; subst rest'; cbn; lia).
    cbn [stream_loop]. rewrite E.
    replace (length pre + length rest' - length pre)%nat with (length rest') by lia.
    assert (Hk : keystream_loop (S fuel) s rest' =
                 let s1 := rabbitNext s in
                 if (16 <=? length rest')%nat then
                   let res := keystream_loop fuel s1 (drop 16 rest') in
                   (fst res, zip_with Z.lxor (take 16 rest') (ks_block s1) ++ snd res)
                 else (set_r s1 (drop (length rest') (ks_block s1)),
                       zip_with Z.lxor rest' (ks_block s1))) by reflexivity.
    rewrite Hk. clear Hk. cbv zeta.
    destruct (Nat.leb_spec 16 (length rest')) as [Hge | Hlt].
    + rewrite <- (take_drop 16 rest') at 1.
      rewrite xor_block_spec by (rewrite length_take; lia).
      cbn [mbind option_bind].
      specialize (IH (rabbitNext s) (pre ++ zip_with Z.lxor (take 16 rest') (ks_block (rabbitNext s)))
                     (drop 16 rest')).
      assert (Hz : length (zip_with Z.lxor (take 16 rest') (ks_block (rabbitNext s))) = 16%nat).
      { rewrite length_zip_with, length_take. cbn [ks_block length]. lia. }
      rewrite length_app, Hz in IH.
      rewrite (assoc_L (++)).
      replace (length pre + length rest')%nat
        with (length pre + 16 + length (drop 16 rest'))%nat
        by (rewrite length_drop; lia).
      rewrite IH by (rewrite length_drop; subst rest'; cbn [length] in *; lia).
      cbn [fst snd]. rewrite <- (assoc_L (++)). reflexivity.
    + rewrite tail_loop_spec by assumption.
      cbn [tr tb ti tl].
      rewrite stream_loop_done by lia. reflexivity.
Qed.

(** ** [ProcessStream] computes [process_fun] *)

Lemma ProcessStream_eq (s : Cipher) (buf : list Z) :
  ProcessStream s buf = Some (process_fun s buf).
Proof.
  unfold ProcessStream, process_fun.
  set (k := (length (r s) `min` length buf)%nat).
  set (b := xor_prefix buf (r s)).
  assert (Hb : b = take k b ++ drop k b) by (symmetry; apply take_drop).
  assert (Hlen : length b = length buf) by apply xor_prefix_length.
  assert (Hk : length (take k b) = k) by (rewrite length_take; lia).
  assert (Hloop : stream_loop (length buf) (set_r s []) b k (length buf) =
                  Some (fst (keystream_loop (length buf) (set_r s []) (drop k b)),
                        take k b ++ snd (keystream_loop (length buf) (set_r s []) (drop k b)))).
  { pose proof (stream_loop_spec (length buf) (set_r s []) (take k b) (drop k b)) as H.
    rewrite take_drop, Hk in H.
    replace (k + length (drop k b))%nat with (length buf) in H
      by (rewrite length_drop; lia).
    apply H. rewrite length_drop. lia. }
  destruct (r s) as [| p pend] eqn:Hr.
  - assert (Hs : set_r s [] = s) by (destruct s; cbn in Hr; subst; reflexivity).
    rewrite Hs in *. subst k b. rewrite xor_prefix_nil_r in *.
    cbn [length Nat.ltb Nat.leb mbind option_bind Nat.min] in *.
    exact Hloop.
  - change (0 <? length (p :: pend))%nat with true. cbv iota.
    pose proof (pending_loop_spec (p :: pend) (length (p :: pend)) [] [] buf eq_refl
                  ltac:(lia)) as Hp.
    cbn [app length Nat.add] in Hp. cbn [length].
    rewrite Hp. cbn [mbind option_bind]. exact Hloop.
Qed.

(** ** Properties of the stream processor *)

Lemma ks_block_length (s : Cipher) : length (ks_block s) = 16%nat.
Proof. reflexivity. Qed.

Lemma rabbitNext_master (s : Cipher) : master (rabbitNext s) = master s.
Proof. reflexivity. Qed.

Lemma rabbitNext_r (s : Cipher) : r (rabbitNext s) = r s.
Proof. reflexivity. Qed.

Lemma master_set_r (s : Cipher) (v : list Z) : master (set_r s v) = master s.
Proof. reflexivity. Qed.

Lemma live_set_r (s : Cipher) (v : list Z) : live (set_r s v) = live s.
Proof. reflexivity. Qed.

Lemma r_set_r (s : Cipher) (v : list Z) : r (set_r s v) = v.
Proof. reflexivity. Qed.

Lemma keystream_loop_nil (fuel : nat) (s : Cipher) :
  keystream_loop fuel s [] = (s, []).
Proof. destruct fuel; reflexivity. Qed.

Lemma keystream_loop_cons (fuel : nat) (s : Cipher) (v : Z) (rest : list Z) :
  keystream_loop (S fuel) s (v :: rest) =
    if (16 <=? length (v :: rest))%nat then
      (fst (keystream_loop fuel (rabbitNext s) (drop 16 (v :: rest))),
       zip_with Z.lxor (take 16 (v :: rest)) (ks_block (rabbitNext s)) ++
       snd (keystream_loop fuel (rabbitNext s) (drop 16 (v :: rest))))
    else
      (set_r (rabbitNext s) (drop (length (v :: rest)) (ks_block (rabbitNext s))),
       zip_with Z.lxor (v :: rest) (ks_block (rabbitNext s))).
Proof. reflexivity. Qed.

(** The main loop keeps the master snapshot and the length of the buffer,
    and leaves fewer than sixteen pending bytes if it started with fewer. *)
Lemma keystream_loop_props (fuel : nat) :
  ∀ (s : Cipher) (rest : list Z),
    master (fst (keystream_loop fuel s rest)) = master s ∧
    length (snd (keystream_loop fuel s rest)) = length rest ∧
    ((length (r s) < 16)%nat → (length (r (fst (keystream_loop fuel s rest))) < 16)%nat).
Proof.
  induction fuel as [| fuel IH]; intros s rest.
  - destruct rest; cbn [keystream_loop fst snd]; auto.
  - destruct rest as [| v rest].
    + rewrite keystream_loop_nil. cbn [fst snd]. auto.
    + rewrite keystream_loop_cons.
      destruct (Nat.leb_spec 16 (length (v :: rest))) as [Hge | Hlt]; cbn [fst snd].
      * destruct (IH (rabbitNext s) (drop 16 (v :: rest))) as (Hm & Hl & Hr).
        split; [| split].
        -- rewrite Hm. exact (rabbitNext_master s).
        -- rewrite length_app, Hl, length_zip_with, length_take, ks_block_length,
             length_drop. lia.
        -- intros H. apply Hr. rewrite rabbitNext_r. exact H.
      * split; [| split].
        -- rewrite master_set_r. exact (rabbitNext_master s).
        -- rewrite length_zip_with, ks_block_length. lia.
        -- intros _. rewrite r_set_r, length_drop, ks_block_length.
           cbn [length]. lia.
Qed.

(** Whole blocks leave the pending bytes as they are. *)
Lemma keystream_loop_aligned (fuel : nat) :
  ∀ (s : Cipher) (rest : list Z) (n : nat),
    length rest = (16 * n)%nat → (n ≤ fuel)%nat →
    r (fst (keystream_loop fuel s rest)) = r s.
Proof.
  induction fuel as [| fuel IH]; intros s rest n Hlen Hfuel.
  - destruct rest; [reflexivity | cbn [length] in Hlen; lia].
  - destruct rest as [| v rest].
    + rewrite keystream_loop_nil. reflexivity.
    + rewrite keystream_loop_cons.
      destruct (Nat.leb_spec 16 (length (v :: rest))) as [Hge | Hlt]; cbn [fst snd].
      * rewrite (IH (rabbitNext s) (drop 16 (v :: rest)) (n - 1)%nat).
        -- exact (rabbitNext_r s).
        -- rewrite length_drop. lia.
        -- lia.
      * cbn [length] in *. lia.
Qed.

Lemma process_fun_master (s : Cipher) (buf : list Z) :
  master (fst (process_fun s buf)) = master s.
Proof.
  unfold process_fun. cbn [fst].
  destruct (keystream_loop_props (length buf) (set_r s [])
              (drop (length (r s) `min` length buf) (xor_prefix buf (r s))))
    as (Hm & _ & _).
  rewrite Hm. apply master_set_r.
Qed.

Lemma process_fun_length (s : Cipher) (buf : list Z) :
  length (snd (process_fun s buf)) = length buf.
Proof.
  unfold process_fun. cbn [snd].
  destruct (keystream_loop_props (length buf) (set_r s [])
              (drop (length (r s) `min` length buf) (xor_prefix buf (r s))))
    as (_ & Hl & _).
  rewrite length_app, Hl, length_take, length_drop, xor_prefix_length. lia.
Qed.

Lemma process_fun_pending (s : Cipher) (buf : list Z) :
  (length (r (fst (process_fun s buf))) < 16)%nat.
Proof.
  unfold process_fun. cbn [fst].
  destruct (keystream_loop_props (length buf) (set_r s [])
              (drop (length (r s) `min` length buf) (xor_prefix buf (r s))))
    as (_ & _ & Hr).
  apply Hr. rewrite r_set_r. cbn [length]. lia.
Qed.

(** The first bytes of the output are the input XORed with the pending
    bytes, as far as both reach. *)
Lemma process_fun_lookup (s : Cipher) (buf : list Z) (i : nat) (v p : Z) :
  buf !! i = Some v → r s !! i = Some p →
  snd (process_fun s buf) !! i = Some (Z.lxor v p).
Proof.
  intros Hv Hp. unfold process_fun. cbn [snd].
  pose proof (lookup_lt_Some _ _ _ Hv) as Hi.
  pose proof (lookup_lt_Some _ _ _ Hp) as Hj.
  rewrite lookup_app_l by (rewrite length_take, xor_prefix_length; lia).
  rewrite lookup_take_lt by lia.
  apply xor_prefix_lookup; assumption.
Qed.

(** A buffer no longer than the pending bytes: no round is run, and the
    pending bytes that were not used are dropped. *)
Lemma process_fun_short (s : Cipher) (buf : list Z) :
  (length buf ≤ length (r s))%nat →
  process_fun s buf = (set_r s [], xor_prefix buf (r s)).
Proof.
  intros H. unfold process_fun.
  replace (length (r s) `min` length buf)%nat with (length buf) by lia.
  rewrite drop_ge by (rewrite xor_prefix_length; lia).
  rewrite keystream_loop_nil. cbn [fst snd].
  rewrite app_nil_r, take_ge by (rewrite xor_prefix_length; lia).
  reflexivity.
Qed.

Lemma process_fun_aligned (s : Cipher) (buf : list Z) :
  aligned buf → r s = [] → r (fst (process_fun s buf)) = [].
Proof.
  intros [n Hn] Hr. unfold process_fun. rewrite Hr.
  cbn [length Nat.min fst]. rewrite xor_prefix_nil_r, drop_0.
  rewrite (keystream_loop_aligned (length buf) (set_r s []) buf n) by lia.
  apply r_set_r.
Qed.

(** A sequence of calls never fails and keeps the master snapshot; calls
    on whole blocks leave no pending bytes. *)
Lemma process_all_props (bufs : list (list Z)) :
  ∀ s : Cipher,
    ∃ (s' : Cipher) (outs : list (list Z)),
      process_all s bufs = Some (s', outs) ∧ master s' = master s ∧
      (Forall aligned bufs → r s = [] → r s' = []).
Proof.
  induction bufs as [| b bufs IH]; intros s.
  - exists s, []. auto.
  - cbn [process_all]. rewrite ProcessStream_eq.
    pose proof (process_fun_master s b) as Hm1.
    pose proof (process_fun_aligned s b) as Ha1.
    destruct (process_fun s b) as [s1 out]. cbn [fst] in Hm1, Ha1.
    cbn [mbind option_bind].
    destruct (IH s1) as (s' & outs & Hrun & Hm & Ha).
    rewrite Hrun. cbn [mbind option_bind].
    exists s', (out :: outs). split; [reflexivity |]. split.
    + rewrite Hm. exact Hm1.
    + intros Hall Hr. apply Forall_cons in Hall as [Hb Hall]. auto.
Qed.

(** ** Key schedule and IV setup: results and errors *)

Lemma NewCipher_invalid (key : list Z) :
  length key ≠ 16%nat → NewCipher key = inr (mkKeySizeError 1 (length key)).
Proof.
  intros H. unfold NewCipher.
  destruct (Nat.eqb_spec (length key) 16) as [E | _]; [contradiction | reflexivity].
Qed.

Lemma NewCipher_valid (key : list Z) :
  length key = 16%nat → ∃ s : Cipher, NewCipher key = inl s ∧ r s = [].
Proof.
  intros H. unfold NewCipher. rewrite H. cbn [Nat.eqb negb].
  exists (keySetup key). split; reflexivity.
Qed.

Lemma NewCipher_inl (key : list Z) (s : Cipher) :
  NewCipher key = inl s → length key = 16%nat ∧ r s = [].
Proof.
  intros H. destruct (decide (length key = 16%nat)) as [E | E].
  - split; [exact E |]. destruct (NewCipher_valid key E) as (s' & Hs' & Hr).
    rewrite Hs' in H. injection H as <-. exact Hr.
  - rewrite NewCipher_invalid in H by exact E. discriminate H.
Qed.

(** C6: [NewCipher] returns the key-size error (kind 1, with the length it
    was given) exactly when the key is not 16 bytes long and a cipher
    exactly when it is; [SetupIV] returns the IV-size error (kind 2)
    exactly when the IV is not 8 bytes long and no error exactly when it
    is; when [SetupIV] returns an error the cipher is unchanged; and
    [ProcessStream] always returns, without a panic, a buffer of the length
    it was given.  [ResetCipher], [Reset] and [rabbitNext] have no error
    result and index arrays of fixed size only. *)
Theorem errors_exact :
  (∀ key : list Z,
     NewCipher key = inr (mkKeySizeError 1 (length key)) ↔ length key ≠ 16%nat) ∧
  (∀ key : list Z, (∃ s : Cipher, NewCipher key = inl s) ↔ length key = 16%nat) ∧
  (∀ (s : Cipher) (iv : list Z),
     snd (SetupIV s iv) = Some (mkKeySizeError 2 (length iv)) ↔ length iv ≠ 8%nat) ∧
  (∀ (s : Cipher) (iv : list Z), snd (SetupIV s iv) = None ↔ length iv = 8%nat) ∧
  (∀ (s : Cipher) (iv : list Z), snd (SetupIV s iv) ≠ None → fst (SetupIV s iv) = s) ∧
  (∀ (s : Cipher) (buf : list Z),
     ∃ (s' : Cipher) (out : list Z),
       ProcessStream s buf = Some (s', out) ∧ length out = length buf).
Proof.
  repeat split.
  - intros H E. destruct (NewCipher_valid key E) as (s & Hs & _).
    rewrite Hs in H. discriminate H.
  - apply NewCipher_invalid.
  - intros [s Hs]. apply NewCipher_inl in Hs. tauto.
  - intros E. destruct (NewCipher_valid key E) as (s & Hs & _). eauto.
  - intros H E. rewrite SetupIV_valid in H by exact E. discriminate H.
  - intros E. rewrite SetupIV_invalid by exact E. reflexivity.
  - intros H. destruct (decide (length iv = 8%nat)) as [E | E]; [exact E |].
    rewrite SetupIV_invalid in H by exact E. discriminate H.
  - intros E. rewrite SetupIV_valid by exact E. reflexivity.
  - intros s iv H. destruct (decide (length iv = 8%nat)) as [E | E].
    + rewrite SetupIV_valid in H by exact E. contradiction H. reflexivity.
    + rewrite SetupIV_invalid by exact E. reflexivity.
  - intros s buf. rewrite ProcessStream_eq.
    destruct (process_fun s buf) as [s' out] eqn:E. exists s', out.
    split; [reflexivity |].
    replace out with (snd (process_fun s buf)) by (rewrite E; reflexivity).
    apply process_fun_length.
Qed.

(** C7, on the all-zero key and IV. *)
Lemma SetupIV_idempotent_witness :
  length zero_iv = 8%nat ∧
  let s1 := fst (SetupIV zero_key_cipher zero_iv) in
  let s2 := fst (SetupIV s1 zero_iv) in
  snd (SetupIV zero_key_cipher zero_iv) = None ∧ snd (SetupIV s1 zero_iv) = None ∧
  x s2 = x s1 ∧ c s2 = c s1 ∧ carry s2 = carry s1 ∧
  master s1 = master zero_key_cipher ∧
  ∀ s' : Cipher, master s' = master zero_key_cipher →
    live (fst (SetupIV s' zero_iv)) = live s1.
Proof.
  split; [reflexivity |].
  apply (SetupIV_idempotent zero_key_cipher zero_iv). reflexivity.
Defined.

(** ** Short buffers and pending bytes *)

(** A buffer no longer than the pending bytes is XORed with a prefix of
    them, and [c.r = nil] then drops all of them, used or not. *)
Lemma ProcessStream_short (s : Cipher) (buf : list Z) :
  (length buf ≤ length (r s))%nat →
  ProcessStream s buf = Some (set_r s [], xor_prefix buf (r s)).
Proof.
  intros H. rewrite ProcessStream_eq, process_fun_short by exact H. reflexivity.
Qed.

Lemma ProcessStream_nil (s : Cipher) :
  ProcessStream s [] = Some (set_r s [], []).
Proof. rewrite ProcessStream_short by (cbn [length]; lia). reflexivity. Qed.

Example used_cipher_pending :
  r used_cipher = [0xF7; 0x4A; 0x1C; 0x26; 0x45; 0x6B; 0xF5; 0xEC;
                   0xD6; 0xA5; 0x36; 0xF0; 0x54; 0x57; 0xB1].
Proof. vm_compute. reflexivity. Qed.

(** C1 (the code at a failing input): under the all-zero key a buffer of
    three zero bytes is encrypted to 02 F7 4A in one call, and to 02 F7 A7
    in three calls of one byte each: the second call uses one of the
    fifteen pending bytes and drops the other fourteen, so the third call
    starts a new keystream block. *)
Lemma ProcessStream_chunks_differ :
  snd <$> ProcessStream zero_key_cipher [0; 0; 0] = Some [0x02; 0xF7; 0x4A] ∧
  snd <$> process_all zero_key_cipher [[0]; [0]; [0]] = Some [[0x02]; [0xF7]; [0xA7]].
Proof. split; vm_compute; reflexivity. Qed.

(** C2 (the code at a failing input): a call with an empty buffer on a
    cipher with fifteen pending bytes leaves [x], [c] and [carry] alone but
    clears the pending bytes. *)
Lemma ProcessStream_empty_clears_pending :
  length (r used_cipher) = 15%nat ∧
  ProcessStream used_cipher [] = Some (set_r used_cipher [], []).
Proof.
  split; [rewrite used_cipher_pending; reflexivity | apply ProcessStream_nil].
Qed.

(** ** Reset *)

(** C3 (the code at a failing input): the all-zero key leaves the master
    carry flag set, and [Reset] does not clear it. *)
Lemma Reset_keeps_ccarry :
  NewCipher zero_key = inl zero_key_cipher ∧
  ccarry zero_key_cipher = true ∧
  ccarry (Reset zero_key_cipher) = true.
Proof. repeat split; vm_compute; reflexivity. Qed.

(** ** The pending bytes across operations *)

Lemma step_pending (s : Cipher) (o : op) :
  ∃ s' : Cipher,
    step s o = Some s' ∧
    ((length (r s) < 16)%nat → (length (r s') < 16)%nat).
Proof.
  destruct o as [iv | buf | |]; cbn [step].
  - eexists. split; [reflexivity |].
    destruct (SetupIV_frame s iv) as [_ ->]. auto.
  - rewrite ProcessStream_eq. cbn [fmap option_fmap option_map].
    eexists. split; [reflexivity |]. intros _. apply process_fun_pending.
  - eexists. split; [reflexivity |]. rewrite ResetCipher_eq. cbn [r]. auto.
  - eexists. split; [reflexivity |]. rewrite Reset_eq. cbn [r]. auto.
Qed.

Lemma run_pending (ops : list op) :
  ∀ s : Cipher, (length (r s) < 16)%nat →
    ∃ s' : Cipher, run s ops = Some s' ∧ (length (r s') < 16)%nat.
Proof.
  induction ops as [| o ops IH]; intros s Hs.
  - exists s. split; [reflexivity | exact Hs].
  - destruct (step_pending s o) as (s1 & Hstep & H1).
    destruct (IH s1 (H1 Hs)) as (s' & Hrun & H').
    exists s'. split; [| exact H'].
    cbn [run]. rewrite Hstep. cbn [mbind option_bind]. exact Hrun.
Qed.

(** C8: a cipher made by [NewCipher] has no pending bytes; after every
    sequence of [SetupIV], [ProcessStream], [ResetCipher] and [Reset] calls
    on it (no call fails) there are fewer than 16 pending bytes; and
    [SetupIV], [ResetCipher] and [Reset] leave the pending bytes as they
    are, so that only [ProcessStream] changes them. *)
Theorem pending_invariant (key : list Z) (s0 : Cipher) (ops : list op) :
  NewCipher key = inl s0 →
  r s0 = [] ∧
  (∃ s : Cipher, run s0 ops = Some s ∧ (length (r s) < 16)%nat) ∧
  (∀ (s : Cipher) (iv : list Z), r (fst (SetupIV s iv)) = r s) ∧
  (∀ s : Cipher, r (ResetCipher s) = r s) ∧
  (∀ s : Cipher, r (Reset s) = r s).
Proof.
  intros H. apply NewCipher_inl in H as [_ Hr].
  split; [exact Hr |]. split; [| split; [| split]].
  - apply run_pending. rewrite Hr. cbn [length]. lia.
  - intros s iv. apply SetupIV_frame.
  - intros s. rewrite ResetCipher_eq. reflexivity.
  - intros s. rewrite Reset_eq. reflexivity.
Qed.

(** C8, on the all-zero key and a sequence that uses every operation. *)
Lemma pending_invariant_witness :
  NewCipher zero_key = inl zero_key_cipher ∧
  r zero_key_cipher = [] ∧
  (∃ s : Cipher, run zero_key_cipher sample_ops = Some s ∧ (length (r s) < 16)%nat) ∧
  (∀ (s : Cipher) (iv : list Z), r (fst (SetupIV s iv)) = r s) ∧
  (∀ s : Cipher, r (ResetCipher s) = r s) ∧
  (∀ s : Cipher, r (Reset s) = r s).
Proof.
  assert (H : NewCipher zero_key = inl zero_key_cipher) by (vm_compute; reflexivity).
  split; [exact H |].
  apply (pending_invariant zero_key zero_key_cipher sample_ops). exact H.
Defined.

(** C10: [SetupIV] with an IV of 8 bytes leaves the pending bytes as they
    are, and the next [ProcessStream] XORs the first bytes of its buffer
    with them (byte [i] with pending byte [i], as far as both reach): the
    keystream left over from before the IV was set. *)
Theorem SetupIV_keeps_pending (s : Cipher) (iv buf : list Z) :
  length iv = 8%nat →
  let s' := fst (SetupIV s iv) in
  snd (SetupIV s iv) = None ∧
  r s' = r s ∧
  ∃ (s'' : Cipher) (out : list Z),
    ProcessStream s' buf = Some (s'', out) ∧
    length out = length buf ∧
    ∀ (i : nat) (v p : Z),
      buf !! i = Some v → r s !! i = Some p → out !! i = Some (Z.lxor v p).
Proof.
  intros Hlen s'.
  assert (Hr : r s' = r s) by apply SetupIV_frame.
  split; [rewrite SetupIV_valid by exact Hlen; reflexivity |].
  split; [exact Hr |].
  rewrite ProcessStream_eq.
  pose proof (process_fun_length s' buf) as Hl.
  pose proof (process_fun_lookup s' buf) as Hlk.
  destruct (process_fun s' buf) as [s'' out]. cbn [snd] in Hl, Hlk.
  exists s'', out. split; [reflexivity |]. split; [exact Hl |].
  intros i v p Hv Hp. apply Hlk; [exact Hv |]. rewrite Hr. exact Hp.
Qed.

(** C10, on a cipher with fifteen pending bytes. *)
Lemma SetupIV_keeps_pending_witness :
  length zero_iv = 8%nat ∧
  let s' := fst (SetupIV used_cipher zero_iv) in
  snd (SetupIV used_cipher zero_iv) = None ∧
  r s' = r used_cipher ∧
  ∃ (s'' : Cipher) (out : list Z),
    ProcessStream s' [7; 7] = Some (s'', out) ∧
    length out = length [7; 7] ∧
    ∀ (i : nat) (v p : Z),
      [7; 7] !! i = Some v → r used_cipher !! i = Some p →
      out !! i = Some (Z.lxor v p).
Proof.
  split; [reflexivity |].
  apply (SetupIV_keeps_pending used_cipher zero_iv [7; 7]). reflexivity.
Defined.

(** ** Rewinding a used cipher *)

(** C5 (as the specification has it) fails: under the all-zero key and
    IV, after one byte has been processed, [ResetCipher] and [SetupIV] with
    the same IV do not bring back the keystream of the fresh cipher: the
    next sixteen bytes are XORed with the fifteen stale pending bytes and
    then with the first byte of the fresh keystream. *)
Lemma ResetCipher_SetupIV_stale_pending :
  let s1 := fst (SetupIV zero_key_cipher zero_iv) in
  ∃ (s2 : Cipher) (out : list Z),
    ProcessStream s1 [0] = Some (s2, out) ∧
    let s4 := fst (SetupIV (ResetCipher s2) zero_iv) in
    snd <$> ProcessStream s4 (repeat 0 16%nat) ≠
    snd <$> ProcessStream s1 (repeat 0 16%nat).
Proof.
  cbv zeta.
  destruct (ProcessStream (fst (SetupIV zero_key_cipher zero_iv)) [0])
    as [[s2 out] |] eqn:E.
  - exists s2, out. split; [reflexivity |].
    vm_compute in E. injection E as <- <-.
    vm_compute. discriminate.
  - vm_compute in E. discriminate E.
Qed.

(** C5 (as the code has it): after [NewCipher], [SetupIV] and any sequence
    of [ProcessStream] calls (none fails), [ResetCipher] and [SetupIV] with
    the same IV give back the freshly set-up cipher in every field but the
    pending bytes, which stay as the calls left them.  When no bytes are
    pending, which is so when every call was on whole blocks, the cipher
    is the fresh one and every later [ProcessStream] call does the same on
    both. *)
Theorem ResetCipher_SetupIV_fresh (key iv : list Z) (bufs : list (list Z)) (s0 : Cipher) :
  NewCipher key = inl s0 → length iv = 8%nat →
  let s1 := fst (SetupIV s0 iv) in
  ∃ (s2 : Cipher) (outs : list (list Z)),
    process_all s1 bufs = Some (s2, outs) ∧
    let s4 := fst (SetupIV (ResetCipher s2) iv) in
    snd (SetupIV (ResetCipher s2) iv) = None ∧
    s4 = set_r s1 (r s2) ∧
    (r s2 = [] → ∀ buf : list Z, ProcessStream s4 buf = ProcessStream s1 buf) ∧
    (Forall aligned bufs → r s2 = []).
Proof.
  intros Hkey Hlen s1.
  apply NewCipher_inl in Hkey as [_ Hr0].
  destruct (SetupIV_frame s0 iv) as [Hm1 Hr1]. fold s1 in Hm1, Hr1.
  destruct (process_all_props bufs s1) as (s2 & outs & Hrun & Hm2 & Ha).
  exists s2, outs. split; [exact Hrun |]. cbv zeta.
  set (s3 := ResetCipher s2).
  assert (Hm3 : master s3 = master s2) by (subst s3; rewrite ResetCipher_eq; reflexivity).
  assert (Hr3 : r s3 = r s2) by (subst s3; rewrite ResetCipher_eq; reflexivity).
  destruct (SetupIV_frame s3 iv) as [Hm4 Hr4].
  assert (Heq : fst (SetupIV s3 iv) = set_r s1 (r s2)).
  { apply eq_by_parts.
    - rewrite live_set_r. subst s1. apply SetupIV_live_from_master; [exact Hlen |].
      rewrite Hm3, Hm2. exact Hm1.
    - rewrite master_set_r, Hm4, Hm3. exact Hm2.
    - rewrite r_set_r, Hr4. exact Hr3. }
  split; [rewrite SetupIV_valid by exact Hlen; reflexivity |].
  split; [exact Heq |]. split.
  - intros Hr2 buf. rewrite Heq, Hr2.
    replace (set_r s1 []) with s1; [reflexivity |].
    apply eq_by_parts; [reflexivity | reflexivity |].
    rewrite r_set_r, Hr1. exact Hr0.
  - intros Hall. apply Ha; [exact Hall |]. rewrite Hr1. exact Hr0.
Qed.

(** C5, on the all-zero key and IV and two calls on whole blocks. *)
Lemma ResetCipher_SetupIV_fresh_witness :
  NewCipher zero_key = inl zero_key_cipher ∧ length zero_iv = 8%nat ∧
  let bufs := [repeat 0 16%nat; repeat 1 32%nat] in
  let s1 := fst (SetupIV zero_key_cipher zero_iv) in
  ∃ (s2 : Cipher) (outs : list (list Z)),
    process_all s1 bufs = Some (s2, outs) ∧
    let s4 := fst (SetupIV (ResetCipher s2) zero_iv) in
    snd (SetupIV (ResetCipher s2) zero_iv) = None ∧
    s4 = set_r s1 (r s2) ∧
    (r s2 = [] → ∀ buf : list Z, ProcessStream s4 buf = ProcessStream s1 buf) ∧
    (Forall aligned bufs → r s2 = []).
Proof.
  assert (H : NewCipher zero_key = inl zero_key_cipher) by (vm_compute; reflexivity).
  split; [exact H |]. split; [reflexivity |].
  apply (ResetCipher_SetupIV_fresh zero_key zero_iv
           [repeat 0 16%nat; repeat 1 32%nat] zero_key_cipher);
    [exact H | reflexivity].
Defined.

(** * Further properties *)

(** ** Ranges of the machine operations *)

Lemma u32_range (v : Z) : is_u32 (u32 v).
Proof. unfold is_u32, u32. apply Z.mod_pos_bound. lia. Qed.

Lemma byte_range (v : Z) : is_byte (byte v).
Proof. unfold is_byte, byte. apply Z.mod_pos_bound. lia. Qed.

Lemma lxor_mod_pow2 (n a b : Z) :
  0 ≤ n → Z.lxor (a mod 2 ^ n) (b mod 2 ^ n) = Z.lxor a b mod 2 ^ n.
Proof.
  intros Hn. apply Z.bits_inj'. intros i Hi. rewrite Z.lxor_spec.
  destruct (Z.lt_ge_cases i n) as [Hlt | Hge].
  - rewrite !Z.mod_pow2_bits_low by lia. symmetry; apply Z.lxor_spec.
  - rewrite !Z.mod_pow2_bits_high by lia. reflexivity.
Qed.

Lemma lor_mod_pow2 (n a b : Z) :
  0 ≤ n → Z.lor (a mod 2 ^ n) (b mod 2 ^ n) = Z.lor a b mod 2 ^ n.
Proof.
  intros Hn. apply Z.bits_inj'. intros i Hi. rewrite Z.lor_spec.
  destruct (Z.lt_ge_cases i n) as [Hlt | Hge].
  - rewrite !Z.mod_pow2_bits_low by lia. symmetry; apply Z.lor_spec.
  - rewrite !Z.mod_pow2_bits_high by lia. reflexivity.
Qed.

Lemma lxor_range (n a b : Z) :
  0 ≤ n → 0 ≤ a < 2 ^ n → 0 ≤ b < 2 ^ n → 0 ≤ Z.lxor a b < 2 ^ n.
Proof.
  intros Hn Ha Hb.
  rewrite <- (Z.mod_small a (2 ^ n)), <- (Z.mod_small b (2 ^ n)) by assumption.
  rewrite lxor_mod_pow2 by exact Hn.
  apply Z.mod_pos_bound. apply Z.pow_pos_nonneg; lia.
Qed.

Lemma lor_range (n a b : Z) :
  0 ≤ n → 0 ≤ a < 2 ^ n → 0 ≤ b < 2 ^ n → 0 ≤ Z.lor a b < 2 ^ n.
Proof.
  intros Hn Ha Hb.
  rewrite <- (Z.mod_small a (2 ^ n)), <- (Z.mod_small b (2 ^ n)) by assumption.
  rewrite lor_mod_pow2 by exact Hn.
  apply Z.mod_pos_bound. apply Z.pow_pos_nonneg; lia.
Qed.

Lemma shr32_range (v n : Z) : is_u32 v → 0 ≤ n → is_u32 (shr32 v n).
Proof.
  unfold is_u32, shr32. intros Hv Hn. rewrite Z.shiftr_div_pow2 by exact Hn.
  assert (0 < 2 ^ n) by (apply Z.pow_pos_nonneg; lia).
  split; [apply Z.div_pos; lia |].
  apply Z.le_lt_trans with v; [| lia].
  apply Z.div_le_upper_bound; [lia |]. nia.
Qed.

Lemma is_u32_lxor (a b : Z) : is_u32 a → is_u32 b → is_u32 (Z.lxor a b).
Proof. apply lxor_range. lia. Qed.

Lemma is_byte_lxor (a b : Z) : is_byte a → is_byte b → is_byte (Z.lxor a b).
Proof. apply lxor_range. lia. Qed.

(** X1: [rotl] rotates a 32-bit word left: for [0 <= n < 32] the result is
    a 32-bit word whose bit [i] is bit [(i - n) mod 32] of [v]. *)
Theorem rotl_spec (v n : Z) :
  is_u32 v → 0 ≤ n < 32 →
  is_u32 (rotl v n) ∧
  ∀ i : Z, 0 ≤ i < 32 → Z.testbit (rotl v n) i = Z.testbit v ((i - n) mod 32).
Proof.
  intros Hv Hn. split.
  - unfold rotl. apply (lor_range 32); [lia | apply u32_range |].
    apply shr32_range; [exact Hv |]. unfold u32. apply Z.mod_pos_bound. lia.
  - intros i Hi. unfold rotl, shl32, shr32, u32.
    rewrite Z.lor_spec.
    rewrite Z.mod_pow2_bits_low by lia.
    rewrite Z.shiftl_spec by lia.
    rewrite Z.shiftr_spec by lia.
    assert (Hhigh : ∀ j : Z, 32 ≤ j → Z.testbit v j = false).
    { intros j Hj. rewrite <- (Z.mod_small v (2 ^ 32)) by exact Hv.
      apply Z.mod_pow2_bits_high. lia. }
    destruct (decide (n = 0)) as [-> | Hn0].
    + rewrite Z.sub_0_r. change ((32 - 0) mod 2 ^ 32) with 32.
      rewrite (Hhigh (i + 32)) by lia. rewrite orb_false_r.
      rewrite Z.mod_small by lia. reflexivity.
    + rewrite (Z.mod_small (32 - n)) by lia.
      destruct (Z.lt_ge_cases i n) as [Hlt | Hge].
      * rewrite (Z.testbit_neg_r v (i - n)) by lia. cbn [orb].
        replace ((i - n) mod 32) with (i + (32 - n)); [reflexivity |].
        replace (i - n) with ((i + (32 - n)) + (-1) * 32) by lia.
        rewrite Z.mod_add by lia. rewrite Z.mod_small by lia. reflexivity.
      * rewrite (Hhigh (i + (32 - n))) by lia. rewrite orb_false_r.
        rewrite Z.mod_small by lia. reflexivity.
Qed.

(** X1, on the word 0x80000001 rotated by 8. *)
Lemma rotl_spec_witness :
  is_u32 0x80000001 ∧ 0 ≤ 8 < 32 ∧
  is_u32 (rotl 0x80000001 8) ∧
  ∀ i : Z, 0 ≤ i < 32 →
    Z.testbit (rotl 0x80000001 8) i = Z.testbit 0x80000001 ((i - 8) mod 32).
Proof.
  assert (H : is_u32 0x80000001) by (unfold is_u32; lia).
  split; [exact H |]. split; [lia |].
  apply (rotl_spec 0x80000001 8); [exact H | lia].
Defined.

(** The result of the g-function is a 32-bit word, whatever the input. *)
Lemma rabbitCalcG_range (u : Z) : is_u32 (rabbitCalcG u).
Proof.
  unfold rabbitCalcG. apply is_u32_lxor; [unfold add32 | unfold mul32]; apply u32_range.
Qed.

(** ** The key schedule *)

Lemma keySetup_eq (key : list Z) :
  keySetup key = key_finish (warmup (key_init key)).
Proof.
  cbv beta iota zeta delta
    [keySetup key_finish warmup key_init for_range fold_left range8
     set_c set_x set_cx set_cc set_carry set_ccarry set get
     x c cx cc carry ccarry r a0 a1 a2 a3 a4 a5 a6 a7 zeroCipher zero8].
  reflexivity.
Qed.

Lemma key_finish_eq (s : Cipher) :
  key_finish s =
  mkCipher (x s) (mix (c s) (x s)) (x s) (mix (c s) (x s)) (carry s) (carry s) (r s).
Proof.
  destruct s as [xs cs cxs ccs ca cca rs]. destruct xs, cs.
  unfold key_finish, mix.
  cbv beta iota zeta delta
    [for_range fold_left range8 set_c set_x set_cx set_cc set_carry set_ccarry set get
     x c cx cc carry ccarry r a0 a1 a2 a3 a4 a5 a6 a7
     Z.to_nat Z.of_nat Z.land Pos.land Z.add Pos.add Pos.succ Pos.of_succ_nat
     Pos.to_nat Pos.iter_op Nat.add N.succ_double N.double Z.of_N Pos.add_carry].
  reflexivity.
Qed.

Lemma NewCipher_inl_eq (key : list Z) (s : Cipher) :
  NewCipher key = inl s → s = keySetup key.
Proof.
  unfold NewCipher. destruct (negb (length key =? 16)%nat); intros H.
  - discriminate H.
  - exact (eq_sym (f_equal (fun v => match v with inl a => a | inr _ => s end) H)).
Qed.

(** Whatever the cipher it is called on, [rabbitNext] leaves 32-bit words
    in all of [x] and [c]. *)
Lemma rabbitNext_range (s : Cipher) :
  arr8_ok (x (rabbitNext s)) ∧ arr8_ok (c (rabbitNext s)).
Proof.
  split.
  - destruct s as [xs cs cxs ccs ca cca rs]. destruct xs, cs.
    unfold arr8_ok, rabbitNext.
    cbv beta iota zeta delta
      [set_x set_c set_carry x c cx cc carry ccarry r get set
       a0 a1 a2 a3 a4 a5 a6 a7 to_list].
    repeat constructor; apply u32_range.
  - rewrite rabbitNext_c. unfold arr8_ok, to_list. cbn [a0 a1 a2 a3 a4 a5 a6 a7].
    repeat constructor; apply Z.mod_pos_bound; lia.
Qed.

Lemma warmup_range (s : Cipher) : arr8_ok (x (warmup s)) ∧ arr8_ok (c (warmup s)).
Proof.
  unfold warmup, for_range. cbn [fold_left]. apply rabbitNext_range.
Qed.

Lemma mix_ok (cs xs : arr8) : arr8_ok cs → arr8_ok xs → arr8_ok (mix cs xs).
Proof.
  destruct cs, xs. unfold arr8_ok, mix, to_list. cbn [a0 a1 a2 a3 a4 a5 a6 a7].
  intros Hc Hx.
  repeat match goal with
         | H : Forall _ (_ :: _) |- _ => apply Forall_cons in H as [? H]
         end.
  repeat constructor; apply is_u32_lxor; assumption.
Qed.

Lemma warmup_r (s : Cipher) : r (warmup s) = r s.
Proof.
  unfold warmup, for_range. cbn [fold_left]. rewrite !rabbitNext_r. reflexivity.
Qed.

Lemma warmup_master (s : Cipher) : master (warmup s) = master s.
Proof.
  unfold warmup, for_range. cbn [fold_left]. rewrite !rabbitNext_master. reflexivity.
Qed.

Lemma key_init_r (key : list Z) : r (key_init key) = [].
Proof. reflexivity. Qed.

Lemma key_finish_props (w : Cipher) :
  arr8_ok (x w) → arr8_ok (c w) → r w = [] →
  cx (key_finish w) = x (key_finish w) ∧ cc (key_finish w) = c (key_finish w) ∧
  ccarry (key_finish w) = carry (key_finish w) ∧ r (key_finish w) = [] ∧
  cipher_ok (key_finish w) ∧ ResetCipher (key_finish w) = key_finish w.
Proof.
  intros Hx Hc Hr. rewrite ResetCipher_eq, key_finish_eq. unfold cipher_ok.
  cbn [x c cx cc carry ccarry r]. rewrite Hr.
  pose proof (mix_ok _ _ Hc Hx) as Hm.
  repeat split; try assumption; [constructor | cbn [length]; lia].
Qed.

Lemma keySetup_props (key : list Z) :
  cx (keySetup key) = x (keySetup key) ∧ cc (keySetup key) = c (keySetup key) ∧
  ccarry (keySetup key) = carry (keySetup key) ∧ r (keySetup key) = [] ∧
  cipher_ok (keySetup key) ∧ ResetCipher (keySetup key) = keySetup key.
Proof.
  rewrite keySetup_eq.
  destruct (warmup_range (key_init key)) as [Hx Hc].
  apply key_finish_props; [exact Hx | exact Hc |].
  rewrite warmup_r. apply key_init_r.
Qed.

(** X2: the cipher the key schedule returns holds 32-bit words, has no
    pending bytes, and its master snapshot is its live state: [cx = x],
    [cc = c], [ccarry = carry]; so [ResetCipher] leaves it as it is. *)
Theorem NewCipher_snapshot (key : list Z) (s : Cipher) :
  NewCipher key = inl s →
  cx s = x s ∧ cc s = c s ∧ ccarry s = carry s ∧ r s = [] ∧
  cipher_ok s ∧ ResetCipher s = s.
Proof.
  intros H. apply NewCipher_inl_eq in H. rewrite H. apply keySetup_props.
Qed.

(** X2, on the all-zero key. *)
Lemma NewCipher_snapshot_witness :
  NewCipher zero_key = inl zero_key_cipher ∧
  cx zero_key_cipher = x zero_key_cipher ∧ cc zero_key_cipher = c zero_key_cipher ∧
  ccarry zero_key_cipher = carry zero_key_cipher ∧ r zero_key_cipher = [] ∧
  cipher_ok zero_key_cipher ∧ ResetCipher zero_key_cipher = zero_key_cipher.
Proof.
  assert (H : NewCipher zero_key = inl zero_key_cipher) by (vm_compute; reflexivity).
  split; [exact H |]. apply (NewCipher_snapshot zero_key zero_key_cipher). exact H.
Defined.

(** ** The values of the fields across operations *)

Lemma zip_lxor_bytes (a b : list Z) :
  Forall is_byte a → Forall is_byte b → Forall is_byte (zip_with Z.lxor a b).
Proof.
  intros Ha. revert b. induction Ha as [| v a Hv Ha IH]; intros b Hb.
  - constructor.
  - destruct Hb as [| w b Hw Hb]; cbn [zip_with]; constructor.
    + apply is_byte_lxor; assumption.
    + apply IH. exact Hb.
Qed.

Lemma xor_prefix_bytes (buf pend : list Z) :
  Forall is_byte buf → Forall is_byte pend → Forall is_byte (xor_prefix buf pend).
Proof.
  intros Ha. revert pend. induction Ha as [| v a Hv Ha IH]; intros b Hb.
  - constructor.
  - destruct Hb as [| w b Hw Hb]; cbn [xor_prefix]; constructor; auto.
    apply is_byte_lxor; assumption.
Qed.

Lemma ks_block_bytes (s : Cipher) : Forall is_byte (ks_block s).
Proof. unfold ks_block. repeat constructor; apply byte_range. Qed.

Lemma cipher_ok_make (s : Cipher) :
  arr8_ok (x s) → arr8_ok (c s) → arr8_ok (cx s) → arr8_ok (cc s) →
  Forall is_byte (r s) → (length (r s) < 16)%nat → cipher_ok s.
Proof. intros. unfold cipher_ok. repeat split; assumption. Qed.

Lemma cipher_ok_set_r (s : Cipher) (v : list Z) :
  cipher_ok s → Forall is_byte v → (length v < 16)%nat → cipher_ok (set_r s v).
Proof.
  intros (Hx & Hc & Hcx & Hcc & _ & _) Hv Hl. destruct s.
  apply cipher_ok_make; assumption.
Qed.

Lemma master_ok (s s' : Cipher) :
  master s' = master s → arr8_ok (cx s) → arr8_ok (cc s) →
  arr8_ok (cx s') ∧ arr8_ok (cc s').
Proof.
  unfold master. intros H Hcx Hcc.
  assert (H1 : cx s' = cx s) by (exact (f_equal (fun p => fst (fst p)) H)).
  assert (H2 : cc s' = cc s) by (exact (f_equal (fun p => snd (fst p)) H)).
  rewrite H1, H2. split; assumption.
Qed.

Lemma rabbitNext_ok (s : Cipher) : cipher_ok s → cipher_ok (rabbitNext s).
Proof.
  intros (_ & _ & Hcx & Hcc & Hr & Hl).
  destruct (rabbitNext_range s) as [Hx Hc].
  destruct (master_ok s (rabbitNext s) (rabbitNext_master s) Hcx Hcc) as [Hcx' Hcc'].
  rewrite <- (rabbitNext_r s) in Hr, Hl.
  exact (cipher_ok_make (rabbitNext s) Hx Hc Hcx' Hcc' Hr Hl).
Qed.

Lemma warmup_ok (s : Cipher) :
  arr8_ok (cx s) → arr8_ok (cc s) → Forall is_byte (r s) → (length (r s) < 16)%nat →
  cipher_ok (warmup s).
Proof.
  intros Hcx Hcc Hr Hl.
  destruct (warmup_range s) as [Hx Hc].
  destruct (master_ok s (warmup s) (warmup_master s) Hcx Hcc) as [Hcx' Hcc'].
  rewrite <- (warmup_r s) in Hr, Hl.
  exact (cipher_ok_make (warmup s) Hx Hc Hcx' Hcc' Hr Hl).
Qed.

Lemma keystream_loop_ok (fuel : nat) :
  ∀ (s : Cipher) (rest : list Z),
    cipher_ok s →
    cipher_ok (fst (keystream_loop fuel s rest)) ∧
    (Forall is_byte rest → Forall is_byte (snd (keystream_loop fuel s rest))).
Proof.
  induction fuel as [| fuel IH]; intros s rest Hs.
  - destruct rest; cbn [keystream_loop fst snd]; auto.
  - destruct rest as [| v rest].
    + rewrite keystream_loop_nil. cbn [fst snd]. auto.
    + rewrite keystream_loop_cons.
      destruct (Nat.leb_spec 16 (length (v :: rest))) as [Hge | Hlt]; cbn [fst snd].
      * destruct (IH (rabbitNext s) (drop 16 (v :: rest)) (rabbitNext_ok s Hs))
          as [Hok Hout].
        split; [exact Hok |]. intros Hb. apply Forall_app. split.
        -- apply zip_lxor_bytes; [apply Forall_take; exact Hb | apply ks_block_bytes].
        -- apply Hout. apply Forall_drop. exact Hb.
      * split.
        -- apply cipher_ok_set_r; [exact (rabbitNext_ok s Hs) | |].
           ++ apply Forall_drop. apply ks_block_bytes.
           ++ rewrite length_drop, ks_block_length. cbn [length]. lia.
        -- intros Hb. apply zip_lxor_bytes; [exact Hb | apply ks_block_bytes].
Qed.

Lemma process_fun_ok (s : Cipher) (buf : list Z) :
  cipher_ok s →
  cipher_ok (fst (process_fun s buf)) ∧
  (Forall is_byte buf → Forall is_byte (snd (process_fun s buf))).
Proof.
  intros Hs. unfold process_fun. cbn [fst snd].
  assert (Hs0 : cipher_ok (set_r s []))
    by (apply cipher_ok_set_r; [exact Hs | constructor | cbn [length]; lia]).
  destruct (keystream_loop_ok (length buf) (set_r s [])
              (drop (length (r s) `min` length buf) (xor_prefix buf (r s))) Hs0)
    as [Hok Hout].
  split; [exact Hok |]. intros Hb.
  assert (Hp : Forall is_byte (xor_prefix buf (r s))).
  { apply xor_prefix_bytes; [exact Hb |]. apply Hs. }
  apply Forall_app. split; [apply Forall_take; exact Hp |].
  apply Hout. apply Forall_drop. exact Hp.
Qed.

Lemma zero8_ok : arr8_ok zero8.
Proof.
  unfold arr8_ok, zero8, to_list. cbn [a0 a1 a2 a3 a4 a5 a6 a7].
  repeat constructor; unfold is_u32; lia.
Qed.

Lemma step_ok (s s' : Cipher) (o : op) :
  cipher_ok s → step s o = Some s' → cipher_ok s'.
Proof.
  intros Hs Hstep. pose proof Hs as (Hx & Hc & Hcx & Hcc & Hr & Hl).
  destruct o as [iv | buf | |]; cbn [step] in Hstep.
  - destruct (decide (length iv = 8%nat)) as [E | E].
    + rewrite SetupIV_valid in Hstep by exact E. cbn [fst] in Hstep.
      assert (Hs' : s' = warmup (mkCipher (cx s) (iv_counter (cc s) iv) (cx s) (cc s)
                                          (ccarry s) (ccarry s) (r s)))
        by (exact (eq_sym (f_equal (default s') Hstep))).
      rewrite Hs'. apply warmup_ok; assumption.
    + rewrite SetupIV_invalid in Hstep by exact E. cbn [fst] in Hstep.
      assert (Hs' : s' = s) by (exact (eq_sym (f_equal (default s') Hstep))).
      rewrite Hs'. exact Hs.
  - rewrite ProcessStream_eq in Hstep. cbn [fmap option_fmap option_map] in Hstep.
    assert (Hs' : s' = fst (process_fun s buf))
      by (exact (eq_sym (f_equal (default s') Hstep))).
    rewrite Hs'. apply process_fun_ok. exact Hs.
  - assert (Hs' : s' = ResetCipher s) by (exact (eq_sym (f_equal (default s') Hstep))).
    rewrite Hs', ResetCipher_eq. apply cipher_ok_make; assumption.
  - assert (Hs' : s' = Reset s) by (exact (eq_sym (f_equal (default s') Hstep))).
    rewrite Hs', Reset_eq.
    apply cipher_ok_make; try assumption; apply zero8_ok.
Qed.

(** X3: from a cipher made by [NewCipher] (whatever the values in the key),
    after every sequence of [SetupIV], [ProcessStream], [ResetCipher] and
    [Reset] calls, every word of [x], [c], [cx] and [cc] is a 32-bit word,
    every pending byte is a byte and fewer than sixteen are pending: the
    values of the model stay within the Go types. *)
Theorem cipher_ok_invariant (key : list Z) (s0 s : Cipher) (ops : list op) :
  NewCipher key = inl s0 → run s0 ops = Some s → cipher_ok s.
Proof.
  intros Hkey. assert (H0 : cipher_ok s0).
  { apply NewCipher_inl_eq in Hkey. rewrite Hkey. apply keySetup_props. }
  clear Hkey. revert s0 H0. induction ops as [| o ops IH]; intros s0 H0 Hrun.
  - injection Hrun as <-. exact H0.
  - cbn [run] in Hrun. destruct (step s0 o) as [s1 |] eqn:E; [| discriminate Hrun].
    cbn [mbind option_bind] in Hrun.
    apply (IH s1); [| exact Hrun]. apply (step_ok s0 s1 o); assumption.
Qed.

(** X3, on the all-zero key and a sequence that uses every operation. *)
Lemma cipher_ok_invariant_witness :
  NewCipher zero_key = inl zero_key_cipher ∧
  run zero_key_cipher sample_ops =
    Some (default zero_key_cipher (run zero_key_cipher sample_ops)) ∧
  cipher_ok (default zero_key_cipher (run zero_key_cipher sample_ops)).
Proof.
  assert (H : NewCipher zero_key = inl zero_key_cipher) by (vm_compute; reflexivity).
  assert (H' : run zero_key_cipher sample_ops =
               Some (default zero_key_cipher (run zero_key_cipher sample_ops)))
    by (vm_compute; reflexivity).
  split; [exact H |]. split; [exact H' |].
  apply (cipher_ok_invariant zero_key zero_key_cipher _ sample_ops); [exact H | exact H'].
Defined.

Lemma ProcessStream_Some (s s' : Cipher) (buf out : list Z) :
  ProcessStream s buf = Some (s', out) →
  s' = fst (process_fun s buf) ∧ out = snd (process_fun s buf).
Proof.
  rewrite ProcessStream_eq. destruct (process_fun s buf) as [a b].
  intros [= <- <-]. split; reflexivity.
Qed.

Lemma keystream_loop_bytes (fuel : nat) :
  ∀ (s : Cipher) (rest : list Z),
    Forall is_byte rest → Forall is_byte (snd (keystream_loop fuel s rest)).
Proof.
  induction fuel as [| fuel IH]; intros s rest Hrest.
  - destruct rest; cbn [keystream_loop snd]; auto.
  - destruct rest as [| v rest].
    + rewrite keystream_loop_nil. constructor.
    + rewrite keystream_loop_cons.
      destruct (Nat.leb_spec 16 (length (v :: rest))) as [Hge | Hlt]; cbn [snd].
      * apply Forall_app. split.
        -- apply zip_lxor_bytes; [apply Forall_take; exact Hrest | apply ks_block_bytes].
        -- apply IH. apply Forall_drop. exact Hrest.
      * apply zip_lxor_bytes; [exact Hrest | apply ks_block_bytes].
Qed.

(** X4: when the pending bytes and the bytes of the buffer are bytes, so
    are the bytes [ProcessStream] leaves in the buffer. *)
Theorem ProcessStream_bytes (s s' : Cipher) (buf out : list Z) :
  Forall is_byte (r s) → Forall is_byte buf →
  ProcessStream s buf = Some (s', out) → Forall is_byte out.
Proof.
  intros Hr Hb H. apply ProcessStream_Some in H as [_ ->].
  unfold process_fun. cbn [snd].
  assert (Hp : Forall is_byte (xor_prefix buf (r s)))
    by (apply xor_prefix_bytes; assumption).
  apply Forall_app. split; [apply Forall_take; exact Hp |].
  apply keystream_loop_bytes. apply Forall_drop. exact Hp.
Qed.

(** X4, on a cipher with fifteen pending bytes. *)
Lemma ProcessStream_bytes_witness :
  Forall is_byte (r used_cipher) ∧ Forall is_byte [1; 2; 255] ∧
  ProcessStream used_cipher [1; 2; 255] =
    Some (set_r used_cipher [], [0xF6; 0x48; 0xE3]) ∧
  Forall is_byte [0xF6; 0x48; 0xE3].
Proof.
  assert (H1 : Forall is_byte (r used_cipher)).
  { rewrite used_cipher_pending. repeat constructor; unfold is_byte; lia. }
  assert (H2 : Forall is_byte [1; 2; 255])
    by (repeat constructor; unfold is_byte; lia).
  assert (H3 : ProcessStream used_cipher [1; 2; 255] =
               Some (set_r used_cipher [], [0xF6; 0x48; 0xE3]))
    by (vm_compute; reflexivity).
  split; [exact H1 |]. split; [exact H2 |]. split; [exact H3 |].
  exact (ProcessStream_bytes used_cipher _ [1; 2; 255] _ H1 H2 H3).
Defined.

(** ** The keystream does not depend on the data *)

Lemma zip_lxor_swap (a d k : list Z) :
  zip_with Z.lxor (zip_with Z.lxor a d) k = zip_with Z.lxor (zip_with Z.lxor a k) d.
Proof.
  revert d k. induction a as [| v a IH]; intros d k; [reflexivity |].
  destruct d as [| e d]; [rewrite !zip_with_nil_r; reflexivity |].
  destruct k as [| w k]; [rewrite !zip_with_nil_r; reflexivity |].
  cbn [zip_with]. f_equal; [| apply IH].
  rewrite !Z.lxor_assoc. f_equal. apply Z.lxor_comm.
Qed.

Lemma zip_lxor_cancel (a b : list Z) :
  length a = length b → zip_with Z.lxor a (zip_with Z.lxor a b) = b.
Proof.
  revert b. induction a as [| v a IH]; intros [| w b] H; cbn [zip_with];
    try reflexivity; try discriminate H.
  f_equal; [| apply IH; cbn [length] in H; lia].
  rewrite <- Z.lxor_assoc, Z.lxor_nilpotent. apply Z.lxor_0_l.
Qed.

Lemma zip_lxor_comm (a b : list Z) :
  zip_with Z.lxor a b = zip_with Z.lxor b a.
Proof.
  revert b. induction a as [| v a IH]; intros [| w b]; cbn [zip_with]; try reflexivity.
  f_equal; [apply Z.lxor_comm | apply IH].
Qed.

Lemma keystream_loop_S (fuel : nat) (s : Cipher) (rest : list Z) :
  rest ≠ [] →
  keystream_loop (S fuel) s rest =
    if (16 <=? length rest)%nat then
      (fst (keystream_loop fuel (rabbitNext s) (drop 16 rest)),
       zip_with Z.lxor (take 16 rest) (ks_block (rabbitNext s)) ++
       snd (keystream_loop fuel (rabbitNext s) (drop 16 rest)))
    else
      (set_r (rabbitNext s) (drop (length rest) (ks_block (rabbitNext s))),
       zip_with Z.lxor rest (ks_block (rabbitNext s))).
Proof. destruct rest; [contradiction | intros _; apply keystream_loop_cons]. Qed.

Lemma keystream_loop_0 (s : Cipher) (rest : list Z) :
  keystream_loop 0 s rest = (s, rest).
Proof. destruct rest; reflexivity. Qed.

Lemma keystream_loop_xor (fuel : nat) :
  ∀ (s : Cipher) (rest d : list Z),
    length d = length rest →
    keystream_loop fuel s (zip_with Z.lxor rest d) =
    (fst (keystream_loop fuel s rest),
     zip_with Z.lxor (snd (keystream_loop fuel s rest)) d).
Proof.
  induction fuel as [| fuel IH]; intros s rest d Hlen.
  - rewrite !keystream_loop_0. reflexivity.
  - destruct (decide (rest = [])) as [-> | Hne].
    { cbn [zip_with]. rewrite !keystream_loop_nil. reflexivity. }
    assert (Hz : length (zip_with Z.lxor rest d) = length rest)
      by (rewrite length_zip_with; lia).
    assert (Hne' : zip_with Z.lxor rest d ≠ []).
    { intros E. rewrite E in Hz. destruct rest; [contradiction | discriminate Hz]. }
    rewrite !keystream_loop_S by assumption. rewrite Hz.
    destruct (Nat.leb_spec 16 (length rest)) as [Hge | Hlt]; cbn [fst snd].
    + rewrite zip_with_take, zip_with_drop.
      rewrite IH by (rewrite !length_drop; lia).
      cbn [fst snd]. f_equal.
      rewrite <- (take_drop 16 d) at 3.
      rewrite zip_with_app
        by (rewrite length_zip_with, !length_take, ks_block_length; lia).
      f_equal. apply zip_lxor_swap.
    + f_equal. apply zip_lxor_swap.
Qed.

Lemma xor_prefix_zip (buf : list Z) :
  ∀ (d pend : list Z),
    length d = length buf →
    xor_prefix (zip_with Z.lxor buf d) pend = zip_with Z.lxor (xor_prefix buf pend) d.
Proof.
  induction buf as [| v buf IH]; intros [| e d] [| p pend] H; cbn [zip_with xor_prefix];
    try reflexivity; try discriminate H.
  f_equal; [| apply IH; cbn [length] in H; lia].
  rewrite !Z.lxor_assoc. f_equal. apply Z.lxor_comm.
Qed.

(** XORing the input with [d] XORs the output with [d] and leaves the same
    cipher. *)
Lemma process_fun_xor (s : Cipher) (buf d : list Z) :
  length d = length buf →
  process_fun s (zip_with Z.lxor buf d) =
  (fst (process_fun s buf), zip_with Z.lxor (snd (process_fun s buf)) d).
Proof.
  intros Hlen. unfold process_fun. cbn [fst snd].
  assert (Hz : length (zip_with Z.lxor buf d) = length buf)
    by (rewrite length_zip_with; lia).
  rewrite Hz, xor_prefix_zip by exact Hlen.
  set (k := (length (r s) `min` length buf)%nat).
  set (b := xor_prefix buf (r s)).
  assert (Hb : length b = length buf) by apply xor_prefix_length.
  rewrite zip_with_take, zip_with_drop.
  rewrite keystream_loop_xor by (rewrite !length_drop; lia).
  cbn [fst snd]. f_equal.
  rewrite <- (take_drop k d) at 3.
  rewrite zip_with_app by (rewrite !length_take; lia).
  reflexivity.
Qed.

(** X5: the keystream and the cipher [ProcessStream] leaves do not depend on
    the data: XORing the bytes of the buffer with the bytes of any [d] of
    the same length XORs the output with [d] and leaves the same cipher. *)
Theorem ProcessStream_xor (s s' : Cipher) (buf d out : list Z) :
  length d = length buf →
  ProcessStream s buf = Some (s', out) →
  ProcessStream s (zip_with Z.lxor buf d) = Some (s', zip_with Z.lxor out d).
Proof.
  intros Hlen H. apply ProcessStream_Some in H as [-> ->].
  rewrite ProcessStream_eq, process_fun_xor by exact Hlen. reflexivity.
Qed.

(** X5, on the all-zero key. *)
Lemma ProcessStream_xor_witness :
  length [1; 2; 3] = length [0; 0; 0] ∧
  ProcessStream zero_key_cipher [0; 0; 0] =
    Some (default zero_key_cipher (fst <$> ProcessStream zero_key_cipher [0; 0; 0]),
          [0x02; 0xF7; 0x4A]) ∧
  ProcessStream zero_key_cipher (zip_with Z.lxor [0; 0; 0] [1; 2; 3]) =
    Some (default zero_key_cipher (fst <$> ProcessStream zero_key_cipher [0; 0; 0]),
          zip_with Z.lxor [0x02; 0xF7; 0x4A] [1; 2; 3]).
Proof.
  assert (H : ProcessStream zero_key_cipher [0; 0; 0] =
    Some (default zero_key_cipher (fst <$> ProcessStream zero_key_cipher [0; 0; 0]),
          [0x02; 0xF7; 0x4A])) by (vm_compute; reflexivity).
  split; [reflexivity |]. split; [exact H |].
  exact (ProcessStream_xor zero_key_cipher _ [0; 0; 0] [1; 2; 3] _ eq_refl H).
Defined.

(** X6: decryption is encryption: from the same cipher, [ProcessStream] on
    the output of a call gives back the input of that call, and leaves the
    same cipher. *)
Theorem ProcessStream_involutive (s s' : Cipher) (buf out : list Z) :
  ProcessStream s buf = Some (s', out) →
  ProcessStream s out = Some (s', buf).
Proof.
  intros H. apply ProcessStream_Some in H as [-> ->].
  pose proof (process_fun_length s buf) as Hl.
  set (out := snd (process_fun s buf)) in *.
  rewrite ProcessStream_eq.
  rewrite <- (zip_lxor_cancel buf out) at 1 by lia.
  rewrite process_fun_xor by (rewrite length_zip_with; lia).
  fold out. f_equal. f_equal.
  rewrite (zip_lxor_comm buf out). apply zip_lxor_cancel. exact Hl.
Qed.

(** X6, on a cipher with fifteen pending bytes. *)
Lemma ProcessStream_involutive_witness :
  ProcessStream used_cipher [1; 2; 255] =
    Some (set_r used_cipher [], [0xF6; 0x48; 0xE3]) ∧
  ProcessStream used_cipher [0xF6; 0x48; 0xE3] =
    Some (set_r used_cipher [], [1; 2; 255]).
Proof.
  assert (H : ProcessStream used_cipher [1; 2; 255] =
              Some (set_r used_cipher [], [0xF6; 0x48; 0xE3]))
    by (vm_compute; reflexivity).
  split; [exact H |].
  exact (ProcessStream_involutive used_cipher _ [1; 2; 255] _ H).
Defined.

(** ** When splitting a buffer does not change the result *)

Lemma keystream_loop_fuel (f : nat) :
  ∀ (f' : nat) (s : Cipher) (rest : list Z),
    (length rest ≤ f)%nat → (length rest ≤ f')%nat →
    keystream_loop f s rest = keystream_loop f' s rest.
Proof.
  induction f as [| f IH]; intros f' s rest H H'.
  - destruct rest; [| cbn [length] in H; lia]. rewrite !keystream_loop_nil. reflexivity.
  - destruct (decide (rest = [])) as [-> | Hne].
    { rewrite !keystream_loop_nil. reflexivity. }
    destruct f' as [| f'].
    { destruct rest; [contradiction | cbn [length] in H'; lia]. }
    rewrite !keystream_loop_S by exact Hne.
    destruct (Nat.leb_spec 16 (length rest)) as [Hge | Hlt]; [| reflexivity].
    rewrite (IH f' (rabbitNext s) (drop 16 rest)) by (rewrite length_drop; lia).
    reflexivity.
Qed.

Lemma xor_prefix_split (buf : list Z) :
  ∀ pend : list Z,
    (length pend ≤ length buf)%nat →
    xor_prefix buf pend =
    zip_with Z.lxor (take (length pend) buf) pend ++ drop (length pend) buf.
Proof.
  induction buf as [| v buf IH]; intros [| p pend] H; cbn [length] in H;
    try reflexivity; try lia.
  cbn [xor_prefix length take drop zip_with app]. f_equal. apply IH. lia.
Qed.

Lemma zip_with_app_drop (a b k : list Z) :
  (length a ≤ length k)%nat →
  zip_with Z.lxor (a ++ b) k =
  zip_with Z.lxor a k ++ zip_with Z.lxor b (drop (length a) k).
Proof.
  revert k. induction a as [| v a IH]; intros k H.
  - reflexivity.
  - destruct k as [| w k]; [cbn [length] in H; lia |].
    cbn [app zip_with length drop]. f_equal. apply IH. cbn [length] in H. lia.
Qed.

(** A buffer at least as long as the pending bytes uses all of them. *)
Lemma process_fun_fits (s : Cipher) (buf : list Z) :
  (length (r s) ≤ length buf)%nat →
  process_fun s buf =
  (fst (keystream_loop (length buf) (set_r s []) (drop (length (r s)) buf)),
   zip_with Z.lxor (take (length (r s)) buf) (r s) ++
   snd (keystream_loop (length buf) (set_r s []) (drop (length (r s)) buf))).
Proof.
  intros H. unfold process_fun.
  replace (length (r s) `min` length buf)%nat with (length (r s)) by lia.
  rewrite xor_prefix_split by exact H.
  assert (Hz : length (zip_with Z.lxor (take (length (r s)) buf) (r s)) = length (r s))
    by (rewrite length_zip_with, length_take; lia).
  rewrite take_app_length' by (symmetry; exact Hz).
  rewrite drop_app_length' by (symmetry; exact Hz).
  reflexivity.
Qed.

Lemma set_r_nil_id (s : Cipher) : r s = [] → set_r s [] = s.
Proof. destruct s. cbn [r set_r x c cx cc carry ccarry]. intros ->. reflexivity. Qed.

Lemma set_r_set_r (s : Cipher) (v w : list Z) : set_r (set_r s v) w = set_r s w.
Proof. reflexivity. Qed.

Lemma process_fun_no_pending (s : Cipher) (buf : list Z) :
  r s = [] → process_fun s buf = keystream_loop (length buf) s buf.
Proof.
  intros Hr. rewrite process_fun_fits by (rewrite Hr; cbn [length]; lia).
  rewrite Hr. cbn [length]. rewrite take_0, drop_0. cbn [zip_with app].
  rewrite set_r_nil_id by exact Hr.
  destruct (keystream_loop (length buf) s buf); reflexivity.
Qed.

Lemma keystream_loop_app (f1 : nat) :
  ∀ (f : nat) (s0 : Cipher) (a b2 : list Z),
    r s0 = [] →
    (length a ≤ f1)%nat → (length a + length b2 ≤ f)%nat →
    (length (r (fst (keystream_loop f1 s0 a))) ≤ length b2)%nat →
    keystream_loop f s0 (a ++ b2) =
    (fst (process_fun (fst (keystream_loop f1 s0 a)) b2),
     snd (keystream_loop f1 s0 a) ++
     snd (process_fun (fst (keystream_loop f1 s0 a)) b2)).
Proof.
  assert (Hnil : ∀ (g f : nat) (s0 : Cipher) (b2 : list Z),
            r s0 = [] → (length b2 ≤ f)%nat →
            keystream_loop f s0 ([] ++ b2) =
            (fst (process_fun (fst (keystream_loop g s0 [])) b2),
             snd (keystream_loop g s0 []) ++
             snd (process_fun (fst (keystream_loop g s0 [])) b2))).
  { intros g f s0 b2 Hr Hf. rewrite keystream_loop_nil. cbn [fst snd app].
    rewrite process_fun_no_pending by exact Hr.
    rewrite (keystream_loop_fuel f (length b2)) by lia.
    destruct (keystream_loop (length b2) s0 b2); reflexivity. }
  induction f1 as [| f1 IH]; intros f s0 a b2 Hr Hf1 Hf Hfit.
  - destruct a; [| cbn [length] in Hf1; lia].
    apply Hnil; [exact Hr | cbn [length] in Hf; lia].
  - destruct (decide (a = [])) as [-> | Hne].
    { apply Hnil; [exact Hr | cbn [length] in Hf; lia]. }
    assert (Hla : (0 < length a)%nat) by (destruct a; [contradiction | cbn; lia]).
    rewrite keystream_loop_S in Hfit |- * by exact Hne.
    destruct f as [| f]; [lia |].
    assert (Hne' : a ++ b2 ≠ []) by (destruct a; [contradiction | discriminate]).
    rewrite (keystream_loop_S f s0 (a ++ b2)) by exact Hne'.
    rewrite length_app.
    pose proof (rabbitNext_r s0) as Hr'. rewrite Hr in Hr'.
    destruct (Nat.leb_spec 16 (length a)) as [Hge | Hlt]; cbn [fst snd] in Hfit |- *.
    + assert (E : (16 <=? length a + length b2)%nat = true) by (apply Nat.leb_le; lia).
      rewrite E.
      rewrite take_app_le, drop_app_le by lia.
      rewrite (IH f (rabbitNext s0) (drop 16 a) b2 Hr')
        by (rewrite ?length_drop; try lia; exact Hfit).
      cbn [fst snd]. rewrite (assoc_L (++)). reflexivity.
    + rewrite r_set_r, length_drop, ks_block_length in Hfit.
      assert (E : (16 <=? length a + length b2)%nat = true) by (apply Nat.leb_le; lia).
      rewrite E.
      rewrite process_fun_fits
        by (rewrite r_set_r, length_drop, ks_block_length; exact Hfit).
      rewrite r_set_r, set_r_set_r, length_drop, ks_block_length.
      rewrite set_r_nil_id by exact Hr'.
      rewrite take_app_ge, drop_app_ge by lia.
      rewrite zip_with_app_drop by (rewrite ks_block_length; lia).
      rewrite (keystream_loop_fuel f (length b2))
        by (rewrite length_drop; lia).
      cbn [fst snd]. rewrite <- (assoc_L (++)). reflexivity.
Qed.

Lemma process_fun_app (s : Cipher) (b1 b2 : list Z) :
  (length (r s) ≤ length b1)%nat →
  (length (r (fst (process_fun s b1))) ≤ length b2)%nat →
  process_fun s (b1 ++ b2) =
  (fst (process_fun (fst (process_fun s b1)) b2),
   snd (process_fun s b1) ++ snd (process_fun (fst (process_fun s b1)) b2)).
Proof.
  intros H1 H2.
  rewrite (process_fun_fits s (b1 ++ b2)) by (rewrite length_app; lia).
  rewrite (process_fun_fits s b1) in H2 |- * by exact H1.
  cbn [fst snd] in H2 |- *.
  rewrite take_app_le, drop_app_le by lia.
  rewrite length_app.
  rewrite (keystream_loop_app (length b1) (length b1 + length b2) (set_r s [])
             (drop (length (r s)) b1) b2)
    by (rewrite ?length_drop, ?r_set_r; try lia; try reflexivity; exact H2).
  cbn [fst snd]. rewrite (assoc_L (++)). reflexivity.
Qed.

(** X7: streaming equivalence, where it holds: when the first part of a
    buffer is at least as long as the pending bytes, and the second part is
    at least as long as the bytes pending after the first, processing the
    two parts one after the other gives the same bytes and leaves the same
    cipher as processing the whole buffer in one call. *)
Theorem ProcessStream_app (s s1 s2 : Cipher) (b1 b2 o1 o2 : list Z) :
  (length (r s) ≤ length b1)%nat →
  ProcessStream s b1 = Some (s1, o1) →
  (length (r s1) ≤ length b2)%nat →
  ProcessStream s1 b2 = Some (s2, o2) →
  ProcessStream s (b1 ++ b2) = Some (s2, o1 ++ o2).
Proof.
  intros H1 Hp1 H2 Hp2.
  apply ProcessStream_Some in Hp1 as [Hs1 Ho1].
  apply ProcessStream_Some in Hp2 as [Hs2 Ho2].
  rewrite Hs1 in H2, Hs2, Ho2.
  rewrite ProcessStream_eq, process_fun_app by assumption.
  rewrite Hs2, Ho1, Ho2. reflexivity.
Qed.

(** X7, on 3 bytes followed by 20 bytes. *)
Lemma ProcessStream_app_witness :
  let s1 := default zero_key_cipher (fst <$> ProcessStream zero_key_cipher [1; 2; 3]) in
  let s2 := default zero_key_cipher (fst <$> ProcessStream s1 (repeat 7 20%nat)) in
  let o2 := default [] (snd <$> ProcessStream s1 (repeat 7 20%nat)) in
  (length (r zero_key_cipher) ≤ length [1; 2; 3])%nat ∧
  ProcessStream zero_key_cipher [1; 2; 3] = Some (s1, [0x03; 0xF5; 0x49]) ∧
  (length (r s1) ≤ length (repeat 7 20%nat))%nat ∧
  ProcessStream s1 (repeat 7 20%nat) = Some (s2, o2) ∧
  ProcessStream zero_key_cipher ([1; 2; 3] ++ repeat 7 20%nat) =
    Some (s2, [0x03; 0xF5; 0x49] ++ o2).
Proof.
  cbv zeta.
  assert (H1 : (length (r zero_key_cipher) ≤ length [1; 2; 3])%nat)
    by (vm_compute; lia).
  assert (Hp1 : ProcessStream zero_key_cipher [1; 2; 3] =
    Some (default zero_key_cipher (fst <$> ProcessStream zero_key_cipher [1; 2; 3]),
          [0x03; 0xF5; 0x49])) by (vm_compute; reflexivity).
  set (s1 := default zero_key_cipher (fst <$> ProcessStream zero_key_cipher [1; 2; 3]))
    in *.
  assert (H2 : (length (r s1) ≤ length (repeat 7 20%nat))%nat)
    by (vm_compute; lia).
  assert (Hp2 : ProcessStream s1 (repeat 7 20%nat) =
    Some (default zero_key_cipher (fst <$> ProcessStream s1 (repeat 7 20%nat)),
          default [] (snd <$> ProcessStream s1 (repeat 7 20%nat))))
    by (vm_compute; reflexivity).
  split; [exact H1 |]. split; [exact Hp1 |]. split; [exact H2 |]. split; [exact Hp2 |].
  exact (ProcessStream_app zero_key_cipher s1 _ [1; 2; 3] (repeat 7 20%nat) _ _
           H1 Hp1 H2 Hp2).
Defined.

Lemma process_all_concat (bufs : list (list Z)) :
  ∀ (s : Cipher) (last : list Z),
    r s = [] → Forall aligned bufs →
    ∃ (s' : Cipher) (outs : list (list Z)),
      process_all s (bufs ++ [last]) = Some (s', outs) ∧
      process_fun s (concat (bufs ++ [last])) = (s', concat outs).
Proof.
  induction bufs as [| b bufs IH]; intros s last Hr Hall.
  - cbn [app process_all concat]. rewrite ProcessStream_eq, app_nil_r.
    destruct (process_fun s last) as [s1 o1]. cbn [mbind option_bind].
    exists s1, [o1]. cbn [concat]. rewrite app_nil_r. split; reflexivity.
  - apply Forall_cons in Hall as [Hb Hall].
    cbn [app process_all concat]. rewrite ProcessStream_eq.
    pose proof (process_fun_aligned s b Hb Hr) as Hr1.
    assert (Happ : process_fun s (b ++ concat (bufs ++ [last])) =
                   (fst (process_fun (fst (process_fun s b)) (concat (bufs ++ [last]))),
                    snd (process_fun s b) ++
                    snd (process_fun (fst (process_fun s b)) (concat (bufs ++ [last])))))
      by (apply process_fun_app; [rewrite Hr | rewrite Hr1]; cbn [length]; lia).
    rewrite Happ. clear Happ.
    destruct (process_fun s b) as [s1 o1]. cbn [fst snd mbind option_bind] in *.
    destruct (IH s1 last Hr1 Hall) as (s' & outs & Hrun & Hcat).
    rewrite Hrun, Hcat. cbn [mbind option_bind fst snd].
    exists s', (o1 :: outs). split; reflexivity.
Qed.

(** X8: streaming equivalence for whole blocks: from a cipher without
    pending bytes, processing any number of buffers whose lengths are
    multiples of 16 and then one buffer of any length gives the same bytes
    and leaves the same cipher as one call on their concatenation. *)
Theorem process_all_blocks (s s' : Cipher) (bufs outs : list (list Z)) (last : list Z) :
  r s = [] → Forall aligned bufs →
  process_all s (bufs ++ [last]) = Some (s', outs) →
  ProcessStream s (concat (bufs ++ [last])) = Some (s', concat outs).
Proof.
  intros Hr Hall Hrun.
  destruct (process_all_concat bufs s last Hr Hall) as (s1 & outs1 & Hrun1 & Hcat).
  rewrite Hrun1 in Hrun. injection Hrun as <- <-.
  rewrite ProcessStream_eq, Hcat. reflexivity.
Qed.

(** X8, on one block, two blocks and three more bytes. *)
Lemma process_all_blocks_witness :
  let bufs := [repeat 1 16%nat; repeat 2 32%nat] in
  let res := process_all zero_key_cipher (bufs ++ [[3; 4; 5]]) in
  r zero_key_cipher = [] ∧ Forall aligned bufs ∧
  res = Some (default zero_key_cipher (fst <$> res), default [] (snd <$> res)) ∧
  ProcessStream zero_key_cipher (concat (bufs ++ [[3; 4; 5]])) =
    Some (default zero_key_cipher (fst <$> res), concat (default [] (snd <$> res))).
Proof.
  cbv zeta.
  assert (Hr : r zero_key_cipher = []) by (vm_compute; reflexivity).
  assert (Hall : Forall aligned [repeat 1 16%nat; repeat 2 32%nat]).
  { repeat constructor; [exists 1%nat | exists 2%nat]; reflexivity. }
  assert (Hrun : process_all zero_key_cipher
                   ([repeat 1 16%nat; repeat 2 32%nat] ++ [[3; 4; 5]]) =
                 Some (default zero_key_cipher
                         (fst <$> process_all zero_key_cipher
                            ([repeat 1 16%nat; repeat 2 32%nat] ++ [[3; 4; 5]])),
                       default []
                         (snd <$> process_all zero_key_cipher
                            ([repeat 1 16%nat; repeat 2 32%nat] ++ [[3; 4; 5]]))))
    by (vm_compute; reflexivity).
  split; [exact Hr |]. split; [exact Hall |]. split; [exact Hrun |].
  exact (process_all_blocks zero_key_cipher _ _ _ [3; 4; 5] Hr Hall Hrun).
Defined.

(** ** [rabbitGen] and the fast path of [ProcessStream] *)

Lemma rabbitGen_eq (s : Cipher) (buf : list Z) :
  length buf = 16%nat → rabbitGen s buf = (rabbitNext s, ks_block (rabbitNext s)).
Proof.
  intros Hlen.
  do 16 (destruct buf as [| ? buf]; [discriminate Hlen |]).
  destruct buf; [| discriminate Hlen].
  unfold rabbitGen, ks_block, o0, o1, o2, o3. cbv zeta.
  cbn [insert list_insert]. reflexivity.
Qed.

(** X9: [rabbitGen] overwrites all sixteen bytes of its array, and a
    [ProcessStream] call on sixteen bytes from a cipher without pending
    bytes XORs them with exactly the block [rabbitGen] generates and leaves
    the cipher [rabbitGen] leaves. *)
Theorem ProcessStream_block_rabbitGen (s : Cipher) (buf data : list Z) :
  r s = [] → length buf = 16%nat → length data = 16%nat →
  length (snd (rabbitGen s buf)) = 16%nat ∧
  (∀ buf' : list Z, length buf' = 16%nat → rabbitGen s buf' = rabbitGen s buf) ∧
  ProcessStream s data =
    Some (fst (rabbitGen s buf), zip_with Z.lxor data (snd (rabbitGen s buf))).
Proof.
  intros Hr Hbuf Hdata.
  rewrite (rabbitGen_eq s buf Hbuf). cbn [fst snd].
  split; [apply ks_block_length |]. split.
  - intros buf' Hbuf'. apply rabbitGen_eq. exact Hbuf'.
  - rewrite ProcessStream_eq, process_fun_no_pending by exact Hr.
    rewrite Hdata.
    assert (Hne : data ≠ []) by (intros ->; discriminate Hdata).
    rewrite keystream_loop_S by exact Hne. rewrite Hdata.
    cbn [Nat.leb].
    rewrite drop_ge, take_ge by lia. rewrite keystream_loop_nil.
    cbn [fst snd]. rewrite app_nil_r. reflexivity.
Qed.

(** X9, on the all-zero key. *)
Lemma ProcessStream_block_rabbitGen_witness :
  r zero_key_cipher = [] ∧ length (repeat 9 16%nat) = 16%nat ∧
  length (repeat 0 16%nat) = 16%nat ∧
  length (snd (rabbitGen zero_key_cipher (repeat 9 16%nat))) = 16%nat ∧
  (∀ buf' : list Z, length buf' = 16%nat →
     rabbitGen zero_key_cipher buf' = rabbitGen zero_key_cipher (repeat 9 16%nat)) ∧
  ProcessStream zero_key_cipher (repeat 0 16%nat) =
    Some (fst (rabbitGen zero_key_cipher (repeat 9 16%nat)),
          zip_with Z.lxor (repeat 0 16%nat)
            (snd (rabbitGen zero_key_cipher (repeat 9 16%nat)))).
Proof.
  assert (Hr : r zero_key_cipher = []) by (vm_compute; reflexivity).
  split; [exact Hr |]. split; [reflexivity |]. split; [reflexivity |].
  exact (ProcessStream_block_rabbitGen zero_key_cipher (repeat 9 16%nat)
           (repeat 0 16%nat) Hr eq_refl eq_refl).
Defined.

(** ** How far a call advances the cipher *)

Lemma iter_rabbitNext_live (k : nat) (s s' : Cipher) :
  live s = live s' → live (Nat.iter k rabbitNext s) = live (Nat.iter k rabbitNext s').
Proof.
  intros H. induction k as [| k IH]; [exact H |].
  rewrite !Nat.iter_succ. apply rabbitNext_live. exact IH.
Qed.

Lemma iter_rabbitNext_shift (k : nat) (s : Cipher) :
  Nat.iter k rabbitNext (rabbitNext s) = rabbitNext (Nat.iter k rabbitNext s).
Proof.
  rewrite <- Nat.iter_succ_r. apply Nat.iter_succ.
Qed.

Lemma rounds_small (n : nat) : (0 < n < 16)%nat → rounds n = 1%nat ∧ leftover n = (16 - n)%nat.
Proof.
  intros H. unfold rounds, leftover. split.
  - symmetry. apply (Nat.div_unique _ _ _ (n - 1)); lia.
  - rewrite (Nat.mod_small n 16) by lia. apply Nat.mod_small. lia.
Qed.

Lemma rounds_step (n : nat) :
  (16 ≤ n)%nat → rounds n = S (rounds (n - 16)) ∧ leftover n = leftover (n - 16).
Proof.
  intros H. unfold rounds, leftover.
  assert (Hd : ((n + 15) / 16 = S ((n - 16 + 15) / 16))%nat).
  { replace (n + 15)%nat with ((n - 16 + 15) + 1 * 16)%nat by lia.
    rewrite Nat.div_add by lia. lia. }
  assert (Hm : (n mod 16 = (n - 16) mod 16)%nat).
  { replace n with ((n - 16) + 1 * 16)%nat at 1 by lia. apply Nat.Div0.mod_add. }
  rewrite Hd, Hm. split; reflexivity.
Qed.

Lemma keystream_loop_rounds (fuel : nat) :
  ∀ (s : Cipher) (rest : list Z),
    (length rest ≤ fuel)%nat → r s = [] →
    live (fst (keystream_loop fuel s rest)) =
      live (Nat.iter (rounds (length rest)) rabbitNext s) ∧
    length (r (fst (keystream_loop fuel s rest))) = leftover (length rest).
Proof.
  induction fuel as [| fuel IH]; intros s rest Hf Hr.
  - destruct rest; [| cbn [length] in Hf; lia].
    rewrite keystream_loop_nil. cbn [fst length]. rewrite Hr. split; reflexivity.
  - destruct (decide (rest = [])) as [-> | Hne].
    { rewrite keystream_loop_nil. cbn [fst length]. rewrite Hr. split; reflexivity. }
    assert (Hl : (0 < length rest)%nat) by (destruct rest; [contradiction | cbn; lia]).
    rewrite keystream_loop_S by exact Hne.
    pose proof (rabbitNext_r s) as Hr'. rewrite Hr in Hr'.
    destruct (Nat.leb_spec 16 (length rest)) as [Hge | Hlt]; cbn [fst].
    + destruct (rounds_step (length rest) Hge) as [-> ->].
      destruct (IH (rabbitNext s) (drop 16 rest)) as [H1 H2];
        [rewrite length_drop; lia | exact Hr' |].
      rewrite length_drop in H1, H2. rewrite H1, H2.
      rewrite Nat.iter_succ, iter_rabbitNext_shift. split; reflexivity.
    + destruct (rounds_small (length rest)) as [-> ->]; [lia |].
      rewrite r_set_r, live_set_r, length_drop, ks_block_length.
      split; reflexivity.
Qed.

(** X10: how far a call advances the cipher: with [n] the number of bytes
    of the buffer beyond the pending ones (0 when the buffer is no longer
    than the pending bytes), [ProcessStream] runs [rabbitNext] exactly
    [ceil(n/16)] times on [x], [c] and [carry], keeps the master snapshot,
    and leaves [(16 - n mod 16) mod 16] pending bytes. *)
Theorem ProcessStream_advance (s s' : Cipher) (buf out : list Z) :
  ProcessStream s buf = Some (s', out) →
  let n := (length buf - length (r s))%nat in
  live s' = live (Nat.iter (rounds n) rabbitNext s) ∧
  master s' = master s ∧
  length (r s') = leftover n.
Proof.
  intros H n. apply ProcessStream_Some in H as [-> _].
  split; [| split; [apply process_fun_master |]].
  - unfold process_fun. cbn [fst].
    destruct (keystream_loop_rounds (length buf) (set_r s [])
                (drop (length (r s) `min` length buf) (xor_prefix buf (r s))))
      as [H1 _]; [rewrite length_drop, xor_prefix_length; lia | apply r_set_r |].
    rewrite H1, length_drop, xor_prefix_length.
    replace (length buf - length (r s) `min` length buf)%nat with n by lia.
    apply iter_rabbitNext_live. apply live_set_r.
  - unfold process_fun. cbn [fst].
    destruct (keystream_loop_rounds (length buf) (set_r s [])
                (drop (length (r s) `min` length buf) (xor_prefix buf (r s))))
      as [_ H2]; [rewrite length_drop, xor_prefix_length; lia | apply r_set_r |].
    rewrite H2, length_drop, xor_prefix_length.
    replace (length buf - length (r s) `min` length buf)%nat with n by lia.
    reflexivity.
Qed.

(** X10, on forty bytes after fifteen pending ones: two rounds, seven bytes left. *)
Lemma ProcessStream_advance_witness :
  let res := ProcessStream used_cipher (repeat 0 40%nat) in
  let s' := default used_cipher (fst <$> res) in
  res = Some (s', default [] (snd <$> res)) ∧
  let n := (length (repeat 0 40%nat) - length (r used_cipher))%nat in
  live s' = live (Nat.iter (rounds n) rabbitNext used_cipher) ∧
  master s' = master used_cipher ∧
  length (r s') = leftover n.
Proof.
  cbv zeta.
  assert (H : ProcessStream used_cipher (repeat 0 40%nat) =
              Some (default used_cipher (fst <$> ProcessStream used_cipher (repeat 0 40%nat)),
                    default [] (snd <$> ProcessStream used_cipher (repeat 0 40%nat))))
    by (vm_compute; reflexivity).
  split; [exact H |].
  exact (ProcessStream_advance used_cipher _ (repeat 0 40%nat) _ H).
Defined.

Lemma ks_block_set_r (s : Cipher) (v : list Z) : ks_block (set_r s v) = ks_block s.
Proof. reflexivity. Qed.

Lemma leftover_0 : leftover 0 = 0%nat.
Proof. reflexivity. Qed.

Lemma keystream_loop_tail (fuel : nat) :
  ∀ (s : Cipher) (rest : list Z),
    (length rest ≤ fuel)%nat → r s = [] →
    r (fst (keystream_loop fuel s rest)) =
    drop (16 - leftover (length rest)) (ks_block (fst (keystream_loop fuel s rest))).
Proof.
  induction fuel as [| fuel IH]; intros s rest Hf Hr.
  - destruct rest; [| cbn [length] in Hf; lia].
    rewrite keystream_loop_nil. cbn [fst length]. rewrite Hr, leftover_0.
    rewrite drop_ge by (rewrite ks_block_length; lia). reflexivity.
  - destruct (decide (rest = [])) as [-> | Hne].
    { rewrite keystream_loop_nil. cbn [fst length]. rewrite Hr, leftover_0.
      rewrite drop_ge by (rewrite ks_block_length; lia). reflexivity. }
    assert (Hl : (0 < length rest)%nat) by (destruct rest; [contradiction | cbn; lia]).
    rewrite keystream_loop_S by exact Hne.
    pose proof (rabbitNext_r s) as Hr'. rewrite Hr in Hr'.
    destruct (Nat.leb_spec 16 (length rest)) as [Hge | Hlt]; cbn [fst].
    + destruct (rounds_step (length rest) Hge) as [_ ->].
      rewrite <- (length_drop rest 16).
      apply IH; [rewrite length_drop; lia | exact Hr'].
    + destruct (rounds_small (length rest)) as [_ ->]; [lia |].
      rewrite r_set_r, ks_block_set_r. f_equal. lia.
Qed.

(** X11: the pending bytes are the unused end of the keystream block of
    the current state: after every [ProcessStream] call, [c.r] holds the
    last [(16 - n mod 16) mod 16] of the sixteen keystream bytes that the
    [x] the call leaves determines ([n] the number of bytes of the buffer
    beyond the bytes that were pending). *)
Theorem ProcessStream_pending_tail (s s' : Cipher) (buf out : list Z) :
  ProcessStream s buf = Some (s', out) →
  let n := (length buf - length (r s))%nat in
  r s' = drop (16 - leftover n) (ks_block s').
Proof.
  intros H n. apply ProcessStream_Some in H as [-> _].
  unfold process_fun. cbn [fst].
  rewrite (keystream_loop_tail (length buf) (set_r s []))
    by (rewrite ?length_drop, ?xor_prefix_length; try lia; apply r_set_r).
  rewrite length_drop, xor_prefix_length.
  replace (length buf - length (r s) `min` length buf)%nat with n by lia.
  reflexivity.
Qed.

(** X11, on twenty-one bytes. *)
Lemma ProcessStream_pending_tail_witness :
  let res := ProcessStream zero_key_cipher (repeat 0 21%nat) in
  let s' := default zero_key_cipher (fst <$> res) in
  res = Some (s', default [] (snd <$> res)) ∧
  let n := (length (repeat 0 21%nat) - length (r zero_key_cipher))%nat in
  r s' = drop (16 - leftover n) (ks_block s').
Proof.
  cbv zeta.
  assert (H : ProcessStream zero_key_cipher (repeat 0 21%nat) =
    Some (default zero_key_cipher (fst <$> ProcessStream zero_key_cipher (repeat 0 21%nat)),
          default [] (snd <$> ProcessStream zero_key_cipher (repeat 0 21%nat))))
    by (vm_compute; reflexivity).
  split; [exact H |].
  exact (ProcessStream_pending_tail zero_key_cipher _ (repeat 0 21%nat) _ H).
Defined.

(** ** Rewinding *)

Lemma step_master (s s' : Cipher) (o : op) :
  keeps_key o → step s o = Some s' → master s' = master s.
Proof.
  intros Hk Hstep. destruct o as [iv | buf | |]; cbn [step] in Hstep.
  - assert (Hs' : s' = fst (SetupIV s iv)) by (exact (eq_sym (f_equal (default s') Hstep))).
    rewrite Hs'. apply SetupIV_frame.
  - rewrite ProcessStream_eq in Hstep. cbn [fmap option_fmap option_map] in Hstep.
    assert (Hs' : s' = fst (process_fun s buf))
      by (exact (eq_sym (f_equal (default s') Hstep))).
    rewrite Hs'. apply process_fun_master.
  - assert (Hs' : s' = ResetCipher s) by (exact (eq_sym (f_equal (default s') Hstep))).
    rewrite Hs', ResetCipher_eq. reflexivity.
  - contradiction Hk.
Qed.

Lemma run_master (ops : list op) :
  ∀ s s' : Cipher, Forall keeps_key ops → run s ops = Some s' → master s' = master s.
Proof.
  induction ops as [| o ops IH]; intros s s' Hall Hrun.
  - injection Hrun as <-. reflexivity.
  - apply Forall_cons in Hall as [Ho Hall]. cbn [run] in Hrun.
    destruct (step s o) as [s1 |] eqn:E; [| discriminate Hrun].
    cbn [mbind option_bind] in Hrun.
    rewrite (IH s1 s' Hall Hrun). apply (step_master s s1 o Ho E).
Qed.

Lemma ResetCipher_to_master (s0 s : Cipher) :
  cx s0 = x s0 → cc s0 = c s0 → ccarry s0 = carry s0 →
  master s = master s0 → ResetCipher s = set_r s0 (r s).
Proof.
  intros Hx Hc Hca Hm. rewrite ResetCipher_eq.
  unfold master in Hm.
  assert (H1 : cx s = cx s0) by (exact (f_equal (fun p => fst (fst p)) Hm)).
  assert (H2 : cc s = cc s0) by (exact (f_equal (fun p => snd (fst p)) Hm)).
  assert (H3 : ccarry s = ccarry s0) by (exact (f_equal snd Hm)).
  rewrite H1, H2, H3. destruct s0. cbn [x c cx cc carry ccarry r set_r] in *.
  rewrite Hx, Hc, Hca. reflexivity.
Qed.

(** X12: [ResetCipher] rewinds to the key schedule: on a cipher made by
    [NewCipher] and then used by any sequence of [SetupIV], [ProcessStream]
    and [ResetCipher] calls, [ResetCipher] gives back the cipher [NewCipher]
    returned in every field but the pending bytes, which it leaves as they
    are. *)
Theorem ResetCipher_rewinds (key : list Z) (s0 s : Cipher) (ops : list op) :
  NewCipher key = inl s0 → Forall keeps_key ops → run s0 ops = Some s →
  ResetCipher s = set_r s0 (r s).
Proof.
  intros Hkey Hall Hrun.
  apply NewCipher_inl_eq in Hkey. rewrite Hkey in *.
  destruct (keySetup_props key) as (Hx & Hc & Hca & _).
  apply ResetCipher_to_master; try assumption.
  apply (run_master ops); assumption.
Qed.

(** X12, on the all-zero key. *)
Lemma ResetCipher_rewinds_witness :
  let ops := [OpSetupIV zero_iv; OpProcessStream [1; 2; 3]; OpResetCipher;
              OpProcessStream (repeat 0 20%nat)] in
  let s := default zero_key_cipher (run zero_key_cipher ops) in
  NewCipher zero_key = inl zero_key_cipher ∧ Forall keeps_key ops ∧
  run zero_key_cipher ops = Some s ∧
  ResetCipher s = set_r zero_key_cipher (r s).
Proof.
  cbv zeta.
  assert (H : NewCipher zero_key = inl zero_key_cipher) by (vm_compute; reflexivity).
  set (ops := [OpSetupIV zero_iv; OpProcessStream [1; 2; 3]; OpResetCipher;
               OpProcessStream (repeat 0 20%nat)]).
  assert (Hall : Forall keeps_key ops) by (repeat constructor).
  assert (Hrun : run zero_key_cipher ops =
                 Some (default zero_key_cipher (run zero_key_cipher ops)))
    by (vm_compute; reflexivity).
  split; [exact H |]. split; [exact Hall |]. split; [exact Hrun |].
  exact (ResetCipher_rewinds zero_key zero_key_cipher _ ops H Hall Hrun).
Defined.

(** X13: an IV is set on the master snapshot, not on the current state:
    after any sequence of [SetupIV], [ProcessStream] and [ResetCipher]
    calls on a cipher, [SetupIV] with an IV of 8 bytes gives the cipher
    that [SetupIV] with that IV gives before them, in every field but the
    pending bytes; a [ResetCipher] before [SetupIV] changes nothing. *)
Theorem SetupIV_after_use (iv : list Z) (s0 s : Cipher) (ops : list op) :
  length iv = 8%nat → Forall keeps_key ops → run s0 ops = Some s →
  fst (SetupIV s iv) = set_r (fst (SetupIV s0 iv)) (r s) ∧
  SetupIV (ResetCipher s) iv = SetupIV s iv.
Proof.
  intros Hlen Hall Hrun.
  pose proof (run_master ops s0 s Hall Hrun) as Hm.
  split.
  - destruct (SetupIV_frame s iv) as [Hm1 Hr1].
    destruct (SetupIV_frame s0 iv) as [Hm0 _].
    apply eq_by_parts.
    + rewrite live_set_r. apply SetupIV_live_from_master; assumption.
    + rewrite master_set_r, Hm1, Hm0. exact Hm.
    + rewrite r_set_r. exact Hr1.
  - rewrite !SetupIV_valid by exact Hlen. rewrite ResetCipher_eq. reflexivity.
Qed.

(** X13, on the all-zero key. *)
Lemma SetupIV_after_use_witness :
  let ops := [OpSetupIV (repeat 5 8%nat); OpProcessStream [1; 2; 3]; OpResetCipher;
              OpProcessStream (repeat 0 20%nat)] in
  let s := default zero_key_cipher (run zero_key_cipher ops) in
  length zero_iv = 8%nat ∧
  Forall keeps_key ops ∧ run zero_key_cipher ops = Some s ∧
  fst (SetupIV s zero_iv) = set_r (fst (SetupIV zero_key_cipher zero_iv)) (r s) ∧
  SetupIV (ResetCipher s) zero_iv = SetupIV s zero_iv.
Proof.
  cbv zeta.
  set (ops := [OpSetupIV (repeat 5 8%nat); OpProcessStream [1; 2; 3]; OpResetCipher;
               OpProcessStream (repeat 0 20%nat)]).
  assert (Hall : Forall keeps_key ops) by (repeat constructor).
  assert (Hrun : run zero_key_cipher ops =
                 Some (default zero_key_cipher (run zero_key_cipher ops)))
    by (vm_compute; reflexivity).
  split; [reflexivity |]. split; [exact Hall |]. split; [exact Hrun |].
  exact (SetupIV_after_use zero_iv zero_key_cipher _ ops eq_refl Hall Hrun).
Defined.

(** ** Byte order *)

Lemma lor_shiftl_add (a b k : Z) :
  0 ≤ k → 0 ≤ a < 2 ^ k → Z.lor a (Z.shiftl b k) = a + b * 2 ^ k.
Proof.
  intros Hk Ha.
  assert (Hland : Z.land a (Z.shiftl b k) = 0).
  { apply Z.bits_inj'. intros i Hi. rewrite Z.land_spec, Z.bits_0.
    destruct (Z.lt_ge_cases i k) as [Hlt | Hge].
    - rewrite Z.shiftl_spec_low by exact Hlt. apply andb_false_r.
    - rewrite <- (Z.mod_small a (2 ^ k)) by exact Ha.
      rewrite Z.mod_pow2_bits_high by lia. reflexivity. }
  rewrite <- Z.lxor_lor by exact Hland.
  rewrite <- Z.add_nocarry_lxor by exact Hland.
  rewrite Z.shiftl_mul_pow2 by exact Hk. reflexivity.
Qed.

Lemma le32_value (b : list Z) (i : nat) (b0 b1 b2 b3 : Z) :
  b !! i = Some b0 → b !! (i + 1)%nat = Some b1 →
  b !! (i + 2)%nat = Some b2 → b !! (i + 3)%nat = Some b3 →
  is_byte b0 → is_byte b1 → is_byte b2 → is_byte b3 →
  le32 b i = b0 + b1 * 2 ^ 8 + b2 * 2 ^ 16 + b3 * 2 ^ 24.
Proof.
  unfold is_byte. intros E0 E1 E2 E3 H0 H1 H2 H3. unfold le32, shl32, u32.
  rewrite (list_lookup_total_correct _ _ _ E0), (list_lookup_total_correct _ _ _ E1),
    (list_lookup_total_correct _ _ _ E2), (list_lookup_total_correct _ _ _ E3).
  rewrite !Z.shiftl_mul_pow2 by lia.
  rewrite !Z.mod_small by lia.
  rewrite <- !Z.shiftl_mul_pow2 by lia.
  rewrite (lor_shiftl_add b0 b1 8) by lia.
  rewrite (lor_shiftl_add _ b2 16) by lia.
  rewrite (lor_shiftl_add _ b3 24) by lia.
  rewrite ?Z.shiftl_mul_pow2 by lia. reflexivity.
Qed.

(** X14: byte order: the word that [NewCipher] and [SetupIV] load from four
    bytes of a key or IV is the little-endian value of the bytes, a 32-bit
    word, and the four bytes that [ProcessStream] and [rabbitGen] write for
    a word ([byte(w)], [byte(w>>8)], [byte(w>>16)], [byte(w>>24)]) are
    those four bytes again. *)
Theorem le32_round_trip (b : list Z) (i : nat) (b0 b1 b2 b3 : Z) :
  b !! i = Some b0 → b !! (i + 1)%nat = Some b1 →
  b !! (i + 2)%nat = Some b2 → b !! (i + 3)%nat = Some b3 →
  is_byte b0 → is_byte b1 → is_byte b2 → is_byte b3 →
  is_u32 (le32 b i) ∧
  le32 b i = b0 + 2 ^ 8 * b1 + 2 ^ 16 * b2 + 2 ^ 24 * b3 ∧
  [byte (le32 b i); byte (shr32 (le32 b i) 8);
   byte (shr32 (le32 b i) 16); byte (shr32 (le32 b i) 24)] = [b0; b1; b2; b3].
Proof.
  intros E0 E1 E2 E3 H0 H1 H2 H3.
  rewrite (le32_value b i b0 b1 b2 b3) by assumption.
  unfold is_byte, is_u32, byte, shr32 in *.
  rewrite !Z.shiftr_div_pow2 by lia.
  split; [lia |]. split; [lia |].
  repeat f_equal.
  - Z.div_mod_to_equations. lia.
  - Z.div_mod_to_equations. lia.
  - Z.div_mod_to_equations. lia.
  - Z.div_mod_to_equations. lia.
Qed.

(** X14, on the bytes 78 56 34 12. *)
Lemma le32_round_trip_witness :
  let b := [0x78; 0x56; 0x34; 0x12; 0xFF] in
  b !! 0%nat = Some 0x78 ∧ b !! 1%nat = Some 0x56 ∧
  b !! 2%nat = Some 0x34 ∧ b !! 3%nat = Some 0x12 ∧
  is_byte 0x78 ∧ is_byte 0x56 ∧ is_byte 0x34 ∧ is_byte 0x12 ∧
  is_u32 (le32 b 0) ∧
  le32 b 0 = 0x78 + 2 ^ 8 * 0x56 + 2 ^ 16 * 0x34 + 2 ^ 24 * 0x12 ∧
  [byte (le32 b 0); byte (shr32 (le32 b 0) 8);
   byte (shr32 (le32 b 0) 16); byte (shr32 (le32 b 0) 24)] = [0x78; 0x56; 0x34; 0x12].
Proof.
  cbv zeta.
  assert (H0 : is_byte 0x78) by (unfold is_byte; lia).
  assert (H1 : is_byte 0x56) by (unfold is_byte; lia).
  assert (H2 : is_byte 0x34) by (unfold is_byte; lia).
  assert (H3 : is_byte 0x12) by (unfold is_byte; lia).
  do 8 (split; [first [reflexivity | assumption] |]).
  exact (le32_round_trip [0x78; 0x56; 0x34; 0x12; 0xFF] 0 _ _ _ _
           eq_refl eq_refl eq_refl eq_refl H0 H1 H2 H3).
Defined.

(** ** Error messages *)

(** X15: the message names the error: two errors of the kinds the package
    creates (kind 1 for a key, kind 2 for an IV) with the same message are
    the same error, with the same kind and the same size; so a message for
    a key is never a message for an IV. *)
Theorem KeySizeError_String_inj (e1 e2 : KeySizeError) :
  (t e1 = 1 ∨ t e1 = 2) → (t e2 = 1 ∨ t e2 = 2) →
  KeySizeError_String e1 = KeySizeError_String e2 → e1 = e2.
Proof.
  destruct e1 as [t1 n1], e2 as [t2 n2]. unfold KeySizeError_String. cbn [t sz].
  intros [-> | ->] [-> | ->] H; simplify_eq; reflexivity.
Qed.

(** X15, on the error for a key of 15 bytes. *)
Lemma KeySizeError_String_inj_witness :
  (t (mkKeySizeError 1 15) = 1 ∨ t (mkKeySizeError 1 15) = 2) ∧
  (t (mkKeySizeError 1 15) = 1 ∨ t (mkKeySizeError 1 15) = 2) ∧
  KeySizeError_String (mkKeySizeError 1 15) = "crypto/rabbit: invalid key size 15"%string ∧
  (KeySizeError_String (mkKeySizeError 1 15) = KeySizeError_String (mkKeySizeError 1 15) →
   mkKeySizeError 1 15 = mkKeySizeError 1 15).
Proof.
  split; [left; reflexivity |]. split; [left; reflexivity |].
  split; [vm_compute; reflexivity |].
  exact (KeySizeError_String_inj (mkKeySizeError 1 15) (mkKeySizeError 1 15)
           (or_introl eq_refl) (or_introl eq_refl)).
Defined.
